(** * Control/LQR_Dynamics_Model.py: LQR lateral controller, PID longitudinal
      controller, vehicle state and trajectory analyzer

    A shallow embedding of the control-law classes of the Python module and
    the properties stated about them.

    Number model.  Python floats are idealised as real numbers ([R] of the
    Standard Library): rounding, infinities and NaN are outside the model.
    [math.cos], [math.sin], [math.tan], [math.hypot] and [math.pi] are the
    real functions and the real constant.  True division [/] of Python
    floats raises [ZeroDivisionError] on a zero divisor and is modelled by
    [truediv]; divisions by a non-zero literal are written with [/].

    Exceptions are values: a computation returns [Ok a] or [Raise e].
    Methods that mutate [self] return the object after the call together
    with the outcome, so that a mutation made before an exception is kept. *)

From Stdlib Require Import Reals Lra Lia List ZArith Bool.
Import ListNotations.
Open Scope R_scope.

(** ** Exceptions and results *)

Inductive exn : Set :=
| ZeroDivisionError
| IndexError
| ValueError
| LinAlgError
| AssertionError.

Inductive result (A : Type) : Type :=
| Ok (a : A)
| Raise (e : exn).

Arguments Ok {A} a.
Arguments Raise {A} e.

Definition bind {A B : Type} (c : result A) (k : A -> result B) : result B :=
  match c with
  | Ok a => k a
  | Raise e => Raise e
  end.

Notation "x <- c ;; k" := (bind c (fun x => k))
  (at level 61, c at next level, right associativity).
Notation "' p <- c ;; k" := (bind c (fun x => let p := x in k))
  (at level 61, p pattern, c at next level, right associativity).

Definition returns {A : Type} (c : result A) : Prop := exists a, c = Ok a.

(** Python float division. *)
Definition truediv (a b : R) : result R :=
  if Req_dec_T b 0 then Raise ZeroDivisionError else Ok (a / b).

(** Python list indexing with a non-negative index. *)
Definition getitem {A : Type} (l : list A) (i : nat) : result A :=
  match nth_error l i with
  | Some a => Ok a
  | None => Raise IndexError
  end.

(** Python slice [l[a:b]] with non-negative bounds. *)
Definition slice {A : Type} (l : list A) (a b : nat) : list A :=
  skipn a (firstn b l).

(** [math.hypot]. *)
Definition hypot (a b : R) : R := sqrt (a * a + b * b).

(** ** Configuration ([Control.lateral_controller_conf])

    The module of constants imported with [from ... import *] is not among
    the sources.  The constants that the functions below read are the fields
    of a record, which each of these functions takes as a parameter; the
    statements say which properties of the constants they rely on. *)

Record Config : Set := mkConfig {
  ts : R;                (* control tick [s] *)
  l_f : R;               (* front axle to centre of gravity [m] *)
  l_r : R;               (* rear axle to centre of gravity [m] *)
  m_f : R;               (* front mass *)
  m_r : R;               (* rear mass *)
  c_f : R;               (* front cornering stiffness *)
  c_r : R;               (* rear cornering stiffness *)
  max_steer_angle : R;   (* [rad] *)
  max_acceleration : R;  (* [m / s^2] *)
  max_speed : R          (* [km / h] *)
}.

(** The remaining constants of the module, read by [UpdateMatrix] and
    [LatController.ComputeControlCommand]. *)
Record LqrConfig : Set := mkLqrConfig {
  Iz : R;                (* yaw inertia *)
  state_size : nat;
  matrix_q : list R;     (* diagonal of Q *)
  matrix_r : list R;     (* diagonal of R *)
  eps : R;               (* solver tolerance *)
  max_iteration : Z      (* solver iteration cap *)
}.

(** ** [class Gear(Enum)] *)

Inductive Gear : Set := GEAR_DRIVE | GEAR_REVERSE.

Definition Gear_eqb (g1 g2 : Gear) : bool :=
  match g1, g2 with
  | GEAR_DRIVE, GEAR_DRIVE => true
  | GEAR_REVERSE, GEAR_REVERSE => true
  | _, _ => false
  end.

(** ** [pi_2_pi] *)

Definition pi_2_pi (angle : R) : R :=
  let M_PI := PI in
  if Rgt_dec angle M_PI then angle - 2.0 * M_PI
  else if Rlt_dec angle (- M_PI) then angle + 2.0 * M_PI
  else angle.

(** ** [class VehicleState] *)

Record VehicleState : Set := mkVehicleState {
  x : R;
  y : R;
  yaw : R;
  v : R;
  e_cg : R;
  theta_e : R;
  gear : Gear
}.

(** [VehicleState.__init__]; the defaults of the keyword arguments are left
    to the caller. *)
Definition VehicleState_init (x0 y0 yaw0 v0 : R) (gear0 : Gear) : VehicleState :=
  {| x := x0; y := y0; yaw := yaw0; v := v0;
     e_cg := 0.0; theta_e := 0.0; gear := gear0 |}.

Section VehicleStateMethods.

Variable cfg : Config.

Definition RegulateInput (delta a : R) : R * R :=
  let delta :=
    if Rlt_dec delta (-1.0 * cfg.(max_steer_angle))
    then -1.0 * cfg.(max_steer_angle) else delta in
  let delta :=
    if Rgt_dec delta (1.0 * cfg.(max_steer_angle))
    then 1.0 * cfg.(max_steer_angle) else delta in
  let a :=
    if Rlt_dec a (-1.0 * cfg.(max_acceleration))
    then -1.0 * cfg.(max_acceleration) else a in
  let a :=
    if Rgt_dec a (1.0 * cfg.(max_acceleration))
    then 1.0 * cfg.(max_acceleration) else a in
  (delta, a).

Definition RegulateOutput (v0 : R) : R :=
  let max_speed_ := cfg.(max_speed) / 3.6 in
  let v0 := if Rlt_dec v0 (-1.0 * max_speed_) then -1.0 * max_speed_ else v0 in
  let v0 := if Rgt_dec v0 (1.0 * max_speed_) then 1.0 * max_speed_ else v0 in
  v0.

(** The assignments of the method body in order.  The only expression that
    can raise is [self.v / wheelbase_] in the heading update; at that point
    [gear], [x] and [y] are already written. *)
Definition UpdateVehicleState (self : VehicleState)
    (delta a e_cg0 theta_e0 : R) (gear0 : Gear)
  : VehicleState * result unit :=
  let wheelbase_ := cfg.(l_r) + cfg.(l_f) in
  let '(delta, a) := RegulateInput delta a in
  let self := {| x := self.(x); y := self.(y); yaw := self.(yaw);
                 v := self.(v); e_cg := self.(e_cg);
                 theta_e := self.(theta_e); gear := gear0 |} in
  let self := {| x := self.(x) + self.(v) * cos self.(yaw) * cfg.(ts);
                 y := self.(y); yaw := self.(yaw);
                 v := self.(v); e_cg := self.(e_cg);
                 theta_e := self.(theta_e); gear := self.(gear) |} in
  let self := {| x := self.(x);
                 y := self.(y) + self.(v) * sin self.(yaw) * cfg.(ts);
                 yaw := self.(yaw);
                 v := self.(v); e_cg := self.(e_cg);
                 theta_e := self.(theta_e); gear := self.(gear) |} in
  match truediv self.(v) wheelbase_ with
  | Raise e => (self, Raise e)
  | Ok q =>
      let self := {| x := self.(x); y := self.(y);
                     yaw := self.(yaw) + q * tan delta * cfg.(ts);
                     v := self.(v); e_cg := e_cg0;
                     theta_e := theta_e0; gear := self.(gear) |} in
      let v1 :=
        if Gear_eqb gear0 GEAR_DRIVE
        then self.(v) + a * cfg.(ts)
        else self.(v) + -1.0 * a * cfg.(ts) in
      let self := {| x := self.(x); y := self.(y); yaw := self.(yaw);
                     v := RegulateOutput v1; e_cg := self.(e_cg);
                     theta_e := self.(theta_e); gear := self.(gear) |} in
      (self, Ok tt)
  end.

End VehicleStateMethods.

(** ** The part of numpy that the module uses

    One-dimensional arguments are Python lists; a two-dimensional array is
    its shape and its rows.  The operations check shapes as numpy does, on
    the shape alone.  Elementwise operations on arrays of different shapes
    raise: under the entry assertion of [SolveLQRProblem] all operands have
    equal shapes, so numpy's broadcasting never applies there. *)

Definition map2 {A B C : Type} (f : A -> B -> C) (l1 : list A) (l2 : list B)
  : list C :=
  map (fun p => f (fst p) (snd p)) (combine l1 l2).

(** [np.hypot] on two lists (equal lengths, or one of length one). *)
Definition np_hypot (a b : list R) : result (list R) :=
  if Nat.eqb (length a) (length b) then Ok (map2 hypot a b)
  else match a, b with
       | [a0], _ => Ok (map (fun bi => hypot a0 bi) b)
       | _, [b0] => Ok (map (fun ai => hypot ai b0) a)
       | _, _ => Raise ValueError
       end.

(** [np.argmin]: the first index of the minimum, in scan order. *)
Fixpoint argmin_from (best_i : nat) (best : R) (i : nat) (l : list R) : nat :=
  match l with
  | [] => best_i
  | h :: t =>
      if Rlt_dec h best then argmin_from i h (S i) t
      else argmin_from best_i best (S i) t
  end.

Definition np_argmin (l : list R) : result nat :=
  match l with
  | [] => Raise ValueError
  | h :: t => Ok (argmin_from 0 h 1 t)
  end.

Record ndarray : Set := mkarray {
  shape0 : nat;
  shape1 : nat;
  rows : list (list R)
}.

Definition same_shape (X Y : ndarray) : bool :=
  Nat.eqb (shape0 X) (shape0 Y) && Nat.eqb (shape1 X) (shape1 Y).

Definition np_zeros (n m : nat) : ndarray :=
  mkarray n m (repeat (repeat 0 m) n).

Definition columns (X : ndarray) : list (list R) :=
  map (fun j => map (fun r => nth j r 0) (rows X)) (seq 0 (shape1 X)).

(** [X.T] *)
Definition transpose (X : ndarray) : ndarray :=
  mkarray (shape1 X) (shape0 X) (columns X).

Definition dot (r c : list R) : R := fold_right Rplus 0 (map2 Rmult r c).

(** [X @ Y] *)
Definition matmul (X Y : ndarray) : result ndarray :=
  if Nat.eqb (shape1 X) (shape0 Y)
  then Ok (mkarray (shape0 X) (shape1 Y)
             (map (fun r => map (fun c => dot r c) (columns Y)) (rows X)))
  else Raise ValueError.

Definition elementwise (f : R -> R -> R) (X Y : ndarray) : result ndarray :=
  if same_shape X Y
  then Ok (mkarray (shape0 X) (shape1 X) (map2 (map2 f) (rows X) (rows Y)))
  else Raise ValueError.

(** [X + Y] and [X - Y] *)
Definition np_add : ndarray -> ndarray -> result ndarray := elementwise Rplus.
Definition np_sub : ndarray -> ndarray -> result ndarray := elementwise Rminus.

(** [abs(X)] *)
Definition np_abs (X : ndarray) : ndarray :=
  mkarray (shape0 X) (shape1 X) (map (map Rabs) (rows X)).

(** [X.max()]: raises on an array without elements. *)
Definition np_max (X : ndarray) : result R :=
  match concat (rows X) with
  | [] => Raise ValueError
  | h :: t => Ok (fold_left Rmax t h)
  end.

(** [X[i][j]] *)
Definition getitem2 (X : ndarray) (i j : nat) : result R :=
  r <- getitem (rows X) i ;; getitem r j.

(** [X[i][j] = a]: [IndexError] outside the shape. *)
Fixpoint list_set {A : Type} (l : list A) (i : nat) (a : A) : list A :=
  match l, i with
  | [], _ => []
  | _ :: t, O => a :: t
  | h :: t, S i' => h :: list_set t i' a
  end.

Definition np_setitem (X : ndarray) (i j : nat) (a : R) : result ndarray :=
  if Nat.ltb i (shape0 X) && Nat.ltb j (shape1 X)
  then Ok (mkarray (shape0 X) (shape1 X)
             (list_set (rows X) i (list_set (nth i (rows X) []) j a)))
  else Raise IndexError.

(** [np.eye(n)] *)
Definition np_eye (n : nat) : ndarray :=
  mkarray n n
    (map (fun i => map (fun j => if Nat.eqb i j then 1 else 0) (seq 0 n))
         (seq 0 n)).

(** [np.diag(l)] of a list: the square array with [l] on its diagonal. *)
Definition np_diag (l : list R) : ndarray :=
  mkarray (length l) (length l)
    (map (fun i => map (fun j => if Nat.eqb i j then nth i l 0 else 0)
                       (seq 0 (length l)))
         (seq 0 (length l))).

(** [s * X] and [X * s] for a float [s]. *)
Definition np_scale (s : R) (X : ndarray) : ndarray :=
  mkarray (shape0 X) (shape1 X) (map (map (fun a => s * a)) (rows X)).

Definition np_scale_r (X : ndarray) (s : R) : ndarray :=
  mkarray (shape0 X) (shape1 X) (map (map (fun a => a * s)) (rows X)).

(** *** [np.linalg.inv]

    The inverse by cofactors; [LinAlgError] for an array that is not square
    or is singular. *)

Fixpoint remove_nth {A : Type} (j : nat) (l : list A) : list A :=
  match l, j with
  | [], _ => []
  | _ :: t, O => t
  | h :: t, S j' => h :: remove_nth j' t
  end.

Definition sign (j : nat) : R := if Nat.even j then 1 else -1.

Fixpoint det (n : nat) (rs : list (list R)) : R :=
  match n with
  | O => 1
  | S n' =>
      match rs with
      | [] => 0
      | r :: rest =>
          fold_right Rplus 0
            (map (fun j => sign j * nth j r 0 * det n' (map (remove_nth j) rest))
                 (seq 0 (S n')))
      end
  end.

Definition minor (i j : nat) (rs : list (list R)) : list (list R) :=
  map (remove_nth j) (remove_nth i rs).

Definition adjugate (n : nat) (rs : list (list R)) : list (list R) :=
  map (fun i => map (fun j => sign (i + j) * det (n - 1) (minor j i rs))
                    (seq 0 n))
      (seq 0 n).

Definition np_linalg_inv (X : ndarray) : result ndarray :=
  if negb (Nat.eqb (shape0 X) (shape1 X)) then Raise LinAlgError
  else
    let d := det (shape0 X) (rows X) in
    if Req_dec_T d 0 then Raise LinAlgError
    else Ok (mkarray (shape0 X) (shape1 X)
               (map (map (fun a => a / d)) (adjugate (shape0 X) (rows X)))).

(** *** [np.linalg.pinv]

    The Moore-Penrose inverse, computed column by column (Greville): the
    state is the list of columns seen so far and the rows of the
    pseudo-inverse of the matrix they form.  It is total. *)

Definition vec_is_zero (c : list R) : bool :=
  forallb (fun a => if Req_dec_T a 0 then true else false) c.

Definition vscale (s : R) (u : list R) : list R := map (Rmult s) u.

Definition lincomb (n : nat) (d : list R) (vs : list (list R)) : list R :=
  fold_right (map2 Rplus) (repeat 0 n) (map2 vscale d vs).

Definition greville_step (n : nat) (st : list (list R) * list (list R))
    (a : list R) : list (list R) * list (list R) :=
  let '(As, G) := st in
  let d := map (fun g => dot g a) G in
  let c := map2 Rminus a (lincomb n d As) in
  let b := if vec_is_zero c
           then vscale (1 / (1 + dot d d)) (lincomb n d G)
           else vscale (1 / dot c c) c in
  (As ++ [a], map2 (fun di g => map2 Rminus g (vscale di b)) d G ++ [b]).

Definition np_linalg_pinv (X : ndarray) : ndarray :=
  mkarray (shape1 X) (shape0 X)
    (snd (fold_left (greville_step (shape0 X)) (columns X) ([], []))).

(** ** [class TrajectoryAnalyzer] *)

Record TrajectoryAnalyzer : Set := mkTrajectoryAnalyzer {
  x_ : list R;
  y_ : list R;
  yaw_ : list R;
  k_ : list R;
  ind_old : nat;
  ind_end : nat
}.

(** [TrajectoryAnalyzer.__init__] *)
Definition TrajectoryAnalyzer_init (xs ys yaws ks : list R)
  : TrajectoryAnalyzer :=
  {| x_ := xs; y_ := ys; yaw_ := yaws; k_ := ks;
     ind_old := 0; ind_end := length xs |}.

(** The comprehensions [dx] and [dy] of [ToTrajectoryFrame]. *)
Definition dx (self : TrajectoryAnalyzer) (vehicle_state : VehicleState)
  : list R :=
  let x_cg := vehicle_state.(x) in
  map (fun ix => x_cg - ix) (slice self.(x_) self.(ind_old) self.(ind_end)).

Definition dy (self : TrajectoryAnalyzer) (vehicle_state : VehicleState)
  : list R :=
  let y_cg := vehicle_state.(y) in
  map (fun iy => y_cg - iy) (slice self.(y_) self.(ind_old) self.(ind_end)).

(** The nearest-point scan of [ToTrajectoryFrame]: offset of the nearest
    point in the suffix, and the two coordinate differences there. *)
Definition nearest_point (self : TrajectoryAnalyzer)
    (vehicle_state : VehicleState) : result (nat * R * R) :=
  h <- np_hypot (dx self vehicle_state) (dy self vehicle_state) ;;
  ind_add <- np_argmin h ;;
  dxi <- getitem (dx self vehicle_state) ind_add ;;
  dyi <- getitem (dy self vehicle_state) ind_add ;;
  Ok (ind_add, dxi, dyi).

(** Returns [(theta_e, e_cg, yaw_ref, k_ref)].  The cursor is written before
    [yaw_] and [k_] are read, so an [IndexError] there leaves it advanced. *)
Definition ToTrajectoryFrame (self : TrajectoryAnalyzer)
    (vehicle_state : VehicleState)
  : TrajectoryAnalyzer * result (R * R * R * R) :=
  let yaw0 := vehicle_state.(yaw) in
  match nearest_point self vehicle_state with
  | Raise e => (self, Raise e)
  | Ok (ind_add, dxi, dyi) =>
      let dist := hypot dxi dyi in
      let e_cg0 :=
        if Rgt_dec (cos (yaw0 + PI / 2.0) * dxi + sin (yaw0 + PI / 2.0) * dyi) 0.0
        then 1.0 * dist
        else -1.0 * dist in
      let self := {| x_ := self.(x_); y_ := self.(y_); yaw_ := self.(yaw_);
                     k_ := self.(k_);
                     ind_old := self.(ind_old) + ind_add;
                     ind_end := self.(ind_end) |} in
      (self,
       yaw_ref <- getitem self.(yaw_) self.(ind_old) ;;
       let theta_e0 := pi_2_pi (yaw0 - yaw_ref) in
       k_ref <- getitem self.(k_) self.(ind_old) ;;
       Ok (theta_e0, e_cg0, yaw_ref, k_ref))
  end.

(** Successive calls on one analyzer, one per vehicle state. *)
Definition calls (self : TrajectoryAnalyzer) (states : list VehicleState)
  : TrajectoryAnalyzer :=
  fold_left (fun s vs => fst (ToTrajectoryFrame s vs)) states self.

(** ** [class LatController] *)

Module LatController.

Section WithConfig.

Variable cfg : Config.

Definition ComputeFeedForward (vehicle_state : VehicleState)
    (ref_curvature : R) (matrix_k_ : ndarray) : result R :=
  let mass_ := cfg.(m_f) + cfg.(m_r) in
  let wheelbase_ := cfg.(l_f) + cfg.(l_r) in
  kv1 <- (q <- truediv (cfg.(l_r) * mass_ / 2.0) cfg.(c_f) ;;
          truediv q wheelbase_) ;;
  kv2 <- (q <- truediv (cfg.(l_f) * mass_ / 2.0) cfg.(c_r) ;;
          truediv q wheelbase_) ;;
  let kv := kv1 - kv2 in
  let v0 := vehicle_state.(v) in
  if Gear_eqb vehicle_state.(gear) GEAR_REVERSE
  then Ok (wheelbase_ * ref_curvature)
  else
    k02 <- getitem2 matrix_k_ 0 2 ;;
    t <- (q <- truediv (cfg.(l_f) * mass_ * v0 * v0 * ref_curvature / 2.0)
                       cfg.(c_r) ;;
          truediv q wheelbase_) ;;
    Ok (wheelbase_ * ref_curvature + kv * v0 * v0 * ref_curvature -
        k02 * (cfg.(l_r) * ref_curvature - t)).

End WithConfig.

(** [diff] starts at [math.inf]. *)
Inductive xreal : Set := Finite (r : R) | PosInf.

Definition xreal_gt (d : xreal) (t : R) : bool :=
  match d with
  | PosInf => true
  | Finite r => if Rgt_dec r t then true else false
  end.

Definition assert (b : bool) : result unit :=
  if b then Ok tt else Raise AssertionError.

Section Solve.

Variables A B Q R0 : ndarray.
Variable tolerance : R.

(** The condition of the entry assertion; [np.size(X, 0)] is [shape0 X]. *)
Definition compatible_dimensions : bool :=
  Nat.eqb (shape0 A) (shape1 A) &&
  Nat.eqb (shape0 B) (shape0 A) &&
  Nat.eqb (shape0 Q) (shape1 Q) &&
  Nat.eqb (shape0 Q) (shape1 A) &&
  Nat.eqb (shape0 R0) (shape1 R0) &&
  Nat.eqb (shape0 R0) (shape1 B).

(** The body of the [while] loop: [P_next] and the new [diff]. *)
Definition loop_body (M : ndarray) (P : ndarray) : result (ndarray * R) :=
  let AT := transpose A in
  let BT := transpose B in
  let MT := transpose M in
  ATP <- matmul AT P ;;
  ATPA <- matmul ATP A ;;
  ATP' <- matmul AT P ;;
  ATPB <- matmul ATP' B ;;
  ATPB_M <- np_add ATPB M ;;
  BTP <- matmul BT P ;;
  BTPB <- matmul BTP B ;;
  S <- np_add R0 BTPB ;;
  L <- matmul ATPB_M (np_linalg_pinv S) ;;
  BTP' <- matmul BT P ;;
  BTPA <- matmul BTP' A ;;
  BTPA_MT <- np_add BTPA MT ;;
  LR <- matmul L BTPA_MT ;;
  D <- np_sub ATPA LR ;;
  P_next <- np_add D Q ;;
  E <- np_sub P_next P ;;
  diff <- np_max (np_abs E) ;;
  Ok (P_next, diff).

(** [while num_iteration < max_num_iteration and diff > tolerance]; the
    first argument is [max_num_iteration - num_iteration]. *)
Fixpoint while_loop (M : ndarray) (remaining : nat) (P : ndarray) (diff : xreal)
  : result (ndarray * xreal) :=
  match remaining with
  | O => Ok (P, diff)
  | S remaining' =>
      if xreal_gt diff tolerance then
        '(P_next, d) <- loop_body M P ;;
        while_loop M remaining' P_next (Finite d)
      else Ok (P, diff)
  end.

(** The last assignment, [K = np.linalg.inv(BT @ P @ B + R) @ (BT @ P @ A + MT)]. *)
Definition feedback_gain (M : ndarray) (P : ndarray) : result ndarray :=
  let BT := transpose B in
  let MT := transpose M in
  BTP <- matmul BT P ;;
  BTPB <- matmul BTP B ;;
  S <- np_add BTPB R0 ;;
  Sinv <- np_linalg_inv S ;;
  BTP' <- matmul BT P ;;
  BTPA <- matmul BTP' A ;;
  BTPA_MT <- np_add BTPA MT ;;
  matmul Sinv BTPA_MT.

(** The warning printed when the iteration cap is reached is not part of
    the result. *)
Definition SolveLQRProblem (max_num_iteration : Z) : result ndarray :=
  _ <- assert compatible_dimensions ;;
  let M := np_zeros (shape0 Q) (shape1 R0) in
  let P := Q in
  '(P, diff) <- while_loop M (Z.to_nat max_num_iteration) P PosInf ;;
  feedback_gain M P.

End Solve.

Section Controller.

Variable cfg : Config.
Variable lqr : LqrConfig.

(** In an assignment [matrix_a_[i][j] = e] the right-hand side is evaluated
    before the target is indexed. *)
Definition UpdateMatrix (vehicle_state : VehicleState)
  : result (ndarray * ndarray) :=
  let ts_ := cfg.(ts) in
  let mass_ := cfg.(m_f) + cfg.(m_r) in
  let v0 := vehicle_state.(v) in
  let matrix_a_ := np_zeros lqr.(state_size) lqr.(state_size) in
  matrix_a_ <-
    (if Gear_eqb vehicle_state.(gear) GEAR_REVERSE
     then (a <- np_setitem matrix_a_ 0 1 0.0 ;; np_setitem a 0 2 (1.0 * v0))
     else (a <- np_setitem matrix_a_ 0 1 1.0 ;; np_setitem a 0 2 0.0)) ;;
  a11 <- (q <- truediv (-1.0 * (cfg.(c_f) + cfg.(c_r))) mass_ ;;
          truediv q v0) ;;
  matrix_a_ <- np_setitem matrix_a_ 1 1 a11 ;;
  a12 <- truediv (cfg.(c_f) + cfg.(c_r)) mass_ ;;
  matrix_a_ <- np_setitem matrix_a_ 1 2 a12 ;;
  a13 <- (q <- truediv (cfg.(l_r) * cfg.(c_r) - cfg.(l_f) * cfg.(c_f)) mass_ ;;
          truediv q v0) ;;
  matrix_a_ <- np_setitem matrix_a_ 1 3 a13 ;;
  matrix_a_ <- np_setitem matrix_a_ 2 3 1.0 ;;
  a31 <- (q <- truediv (cfg.(l_r) * cfg.(c_r) - cfg.(l_f) * cfg.(c_f)) lqr.(Iz) ;;
          truediv q v0) ;;
  matrix_a_ <- np_setitem matrix_a_ 3 1 a31 ;;
  a32 <- truediv (cfg.(l_f) * cfg.(c_f) - cfg.(l_r) * cfg.(c_r)) lqr.(Iz) ;;
  matrix_a_ <- np_setitem matrix_a_ 3 2 a32 ;;
  a33 <- (q <- truediv (-1.0 * (cfg.(l_f) ^ 2 * cfg.(c_f) +
                                cfg.(l_r) ^ 2 * cfg.(c_r))) lqr.(Iz) ;;
          truediv q v0) ;;
  matrix_a_ <- np_setitem matrix_a_ 3 3 a33 ;;
  let matrix_i := np_eye lqr.(state_size) in
  L <- np_sub matrix_i (np_scale (ts_ * 0.5) matrix_a_) ;;
  let Lp := np_linalg_pinv L in
  R1 <- np_add matrix_i (np_scale (ts_ * 0.5) matrix_a_) ;;
  matrix_ad_ <- matmul Lp R1 ;;
  let matrix_b_ := np_zeros lqr.(state_size) 1 in
  b1 <- truediv cfg.(c_f) mass_ ;;
  matrix_b_ <- np_setitem matrix_b_ 1 0 b1 ;;
  b3 <- truediv (cfg.(l_f) * cfg.(c_f)) lqr.(Iz) ;;
  matrix_b_ <- np_setitem matrix_b_ 3 0 b3 ;;
  let matrix_bd_ := np_scale_r matrix_b_ ts_ in
  Ok (matrix_ad_, matrix_bd_).

(** Returns [(steer_angle, theta_e, e_cg)] and the analyzer as
    [ToTrajectoryFrame] leaves it. *)
Definition ComputeControlCommand (vehicle_state : VehicleState)
    (ref_trajectory : TrajectoryAnalyzer)
  : TrajectoryAnalyzer * result (R * R * R) :=
  let ts_ := cfg.(ts) in
  let e_cg_old := vehicle_state.(e_cg) in
  let theta_e_old := vehicle_state.(theta_e) in
  match ToTrajectoryFrame ref_trajectory vehicle_state with
  | (ref_trajectory, Raise e) => (ref_trajectory, Raise e)
  | (ref_trajectory, Ok (theta_e0, e_cg0, yaw_ref, k_ref)) =>
      (ref_trajectory,
       '(matrix_ad_, matrix_bd_) <- UpdateMatrix vehicle_state ;;
       let matrix_state_ := np_zeros lqr.(state_size) 1 in
       let matrix_r_ := np_diag lqr.(matrix_r) in
       let matrix_q_ := np_diag lqr.(matrix_q) in
       matrix_k_ <- SolveLQRProblem matrix_ad_ matrix_bd_ matrix_q_ matrix_r_
                      lqr.(eps) lqr.(max_iteration) ;;
       matrix_state_ <- np_setitem matrix_state_ 0 0 e_cg0 ;;
       d1 <- truediv (e_cg0 - e_cg_old) ts_ ;;
       matrix_state_ <- np_setitem matrix_state_ 1 0 d1 ;;
       matrix_state_ <- np_setitem matrix_state_ 2 0 theta_e0 ;;
       d3 <- truediv (theta_e0 - theta_e_old) ts_ ;;
       matrix_state_ <- np_setitem matrix_state_ 3 0 d3 ;;
       KS <- matmul matrix_k_ matrix_state_ ;;
       ks00 <- getitem2 KS 0 0 ;;
       let steer_angle_feedback := - ks00 in
       steer_angle_feedforward <-
         ComputeFeedForward cfg vehicle_state k_ref matrix_k_ ;;
       let steer_angle := steer_angle_feedback + steer_angle_feedforward in
       Ok (steer_angle, theta_e0, e_cg0))
  end.

End Controller.

End LatController.

(** ** [class LonController] *)

Module LonController.

Definition ComputeControlCommand (target_speed : R)
    (vehicle_state : VehicleState) (dist : R) : R :=
  let a := 0.3 * (target_speed - vehicle_state.(v)) in
  if Rlt_dec dist 11.0 then
    if Rgt_dec vehicle_state.(v) 2.0 then -3.0
    else if Rlt_dec vehicle_state.(v) (-2) then -1.0
    else a
  else a.

End LonController.

(** ** Vocabulary of the statements *)

(** The boundary a saturated input is replaced by: [bound] above it,
    [- bound] below [- bound]. *)
Definition saturation_boundary (bound u : R) : R :=
  if Rgt_dec u bound then bound else - bound.

(** [i] is the lowest index at which [l] takes its minimum. *)
Definition first_min_index (l : list R) (i : nat) : Prop :=
  (i < length l)%nat /\
  (forall j, (j < length l)%nat -> nth i l 0 <= nth j l 0) /\
  (forall j, (j < i)%nat -> nth i l 0 < nth j l 0).

(** A configuration and a state at which the statements are instantiated. *)
Definition sample_config : Config :=
  {| ts := 0.1; l_f := 1.4; l_r := 1.4; m_f := 570; m_r := 570;
     c_f := 155494.663; c_r := 155494.663;
     max_steer_angle := 0.7; max_acceleration := 5.0; max_speed := 30 |}.

Definition sample_state : VehicleState :=
  {| x := 0; y := 0; yaw := 0; v := 20; e_cg := 0; theta_e := 0;
     gear := GEAR_REVERSE |}.

(** The state of an analyzer over a path of [n] points whose cursor is on
    the path. *)
Definition on_path (n : nat) (self : TrajectoryAnalyzer) : Prop :=
  length self.(x_) = n /\ length self.(y_) = n /\
  length self.(yaw_) = n /\ length self.(k_) = n /\
  self.(ind_end) = n /\ (self.(ind_old) < n)%nat.

(** A path of two coincident points, and its analyzer. *)
Definition sample_analyzer : TrajectoryAnalyzer :=
  TrajectoryAnalyzer_init [0; 0] [0; 0] [0; 0] [0; 0].

(** Further inputs at which statements are instantiated. *)
Definition sample_lqr_config : LqrConfig :=
  {| Iz := 1436.24; state_size := 4; matrix_q := [1; 0; 1; 0];
     matrix_r := [1]; eps := 0.01; max_iteration := 150 |}.

Definition drive_state : VehicleState :=
  {| x := 0; y := 0; yaw := 0; v := 5; e_cg := 0; theta_e := 0;
     gear := GEAR_DRIVE |}.

Definition stopped_state : VehicleState :=
  {| x := 0; y := 0; yaw := 0; v := 0; e_cg := 0; theta_e := 0;
     gear := GEAR_DRIVE |}.

Definition empty_analyzer : TrajectoryAnalyzer :=
  TrajectoryAnalyzer_init [] [] [] [].

Definition short_analyzer : TrajectoryAnalyzer :=
  TrajectoryAnalyzer_init [0] [0] [] [].

Definition zero_wheelbase_config : Config :=
  {| ts := 0.1; l_f := 0; l_r := 0; m_f := 570; m_r := 570;
     c_f := 155494.663; c_r := 155494.663;
     max_steer_angle := 0.7; max_acceleration := 5.0; max_speed := 30 |}.

(** The constants are usable by the lateral controller: no division by a
    constant raises, the state vector has its four entries, and the cost
    diagonals have the lengths of the state and of the single input. *)
Definition usable_config (cfg : Config) (lqr : LqrConfig) : Prop :=
  cfg.(c_f) <> 0 /\ cfg.(c_r) <> 0 /\
  cfg.(l_f) + cfg.(l_r) <> 0 /\ cfg.(m_f) + cfg.(m_r) <> 0 /\
  lqr.(Iz) <> 0 /\ cfg.(ts) <> 0 /\
  (4 <= lqr.(state_size))%nat /\
  length lqr.(matrix_q) = lqr.(state_size) /\
  length lqr.(matrix_r) = 1%nat.

(** An array of shape [n] x [m] whose rows agree with the shape. *)
Definition well_shaped (n m : nat) (X : ndarray) : Prop :=
  shape0 X = n /\ shape1 X = m /\
  length (rows X) = n /\ Forall (fun r => length r = m) (rows X).

(** A 1 x 1 array. *)
Definition mat1 (s : R) : ndarray := mkarray 1 1 [[s]].

(** An inverse function that inverts the non-zero scalars. *)
Definition inverts_scalars (f : ndarray -> result ndarray) : Prop :=
  forall s : R, s <> 0 -> f (mat1 s) = Ok (mat1 (/ s)).

(** The pseudo-inverse of a scalar. *)
Definition pinv1 (s : R) : R := if Req_dec_T s 0 then 0 else / s.

(** *** The Riccati iteration in the words of the specification

    [update] is P_{k+1} = A^T P_k A - A^T P_k B (R + B^T P_k B)^{-1} B^T P_k A + Q,
    [change] the maximum absolute elementwise change between two iterates,
    [gain] is K = (B^T P B + R)^{-1} (B^T P A), and [iterate] starts at the
    given iterate and stops as soon as [stop] holds of the change or after
    [n] updates.  The two inverses are parameters. *)

Module RiccatiSpec.

Section Spec.

Variables inverse_update inverse_gain : ndarray -> result ndarray.
Variables A B Q R0 : ndarray.

Definition update (P : ndarray) : result ndarray :=
  ATP <- matmul (transpose A) P ;;
  ATPA <- matmul ATP A ;;
  ATP' <- matmul (transpose A) P ;;
  ATPB <- matmul ATP' B ;;
  BTP <- matmul (transpose B) P ;;
  BTPB <- matmul BTP B ;;
  S <- np_add R0 BTPB ;;
  Sinv <- inverse_update S ;;
  L <- matmul ATPB Sinv ;;
  BTP' <- matmul (transpose B) P ;;
  BTPA <- matmul BTP' A ;;
  LR <- matmul L BTPA ;;
  D <- np_sub ATPA LR ;;
  np_add D Q.

Definition change (P P_next : ndarray) : result R :=
  E <- np_sub P_next P ;; np_max (np_abs E).

Definition gain (P : ndarray) : result ndarray :=
  BTP <- matmul (transpose B) P ;;
  BTPB <- matmul BTP B ;;
  S <- np_add BTPB R0 ;;
  Sinv <- inverse_gain S ;;
  BTP' <- matmul (transpose B) P ;;
  BTPA <- matmul BTP' A ;;
  matmul Sinv BTPA.

Fixpoint iterate (stop : R -> bool) (n : nat) (P : ndarray) : result ndarray :=
  match n with
  | O => Ok P
  | S n' =>
      P_next <- update P ;;
      d <- change P P_next ;;
      if stop d then Ok P_next else iterate stop n' P_next
  end.

Definition solve (stop : R -> bool) (max_iterations : Z) : result ndarray :=
  P <- iterate stop (Z.to_nat max_iterations) Q ;; gain P.

End Spec.

(** "drops below tolerance" *)
Definition below (tolerance d : R) : bool :=
  if Rlt_dec d tolerance then true else false.

(** "is at most tolerance" *)
Definition at_most (tolerance d : R) : bool :=
  if Rle_dec d tolerance then true else false.

(** The pseudo-inverse as an inverse that never fails. *)
Definition pseudo_inverse (X : ndarray) : result ndarray :=
  Ok (np_linalg_pinv X).

End RiccatiSpec.


(** * Properties *)

(** ** Tactics for the comparisons of the source *)

Ltac no_cmp_inside t :=
  lazymatch t with
  | context [Rlt_dec] => fail
  | context [Rgt_dec] => fail
  | context [Rle_dec] => fail
  | context [Req_dec_T] => fail
  | _ => idtac
  end.

Ltac case_cmp :=
  repeat match goal with
         | |- context [Rlt_dec ?a ?b] =>
             no_cmp_inside a; no_cmp_inside b; destruct (Rlt_dec a b)
         | |- context [Rgt_dec ?a ?b] =>
             no_cmp_inside a; no_cmp_inside b; destruct (Rgt_dec a b)
         | |- context [Rle_dec ?a ?b] =>
             no_cmp_inside a; no_cmp_inside b; destruct (Rle_dec a b)
         | |- context [Req_dec_T ?a ?b] =>
             no_cmp_inside a; no_cmp_inside b; destruct (Req_dec_T a b)
         end.

Ltac case_abs :=
  repeat match goal with
         | H : context [Rabs ?a] |- _ =>
             unfold Rabs in H; destruct (Rcase_abs a)
         | |- context [Rabs ?a] => unfold Rabs; destruct (Rcase_abs a)
         end.

(** ** [LonController] *)

(** C6: the command is the proportional term [0.3 * (target_speed - v)],
    except that within the stopping distance ([dist < 11.0]) it is the fixed
    [-3.0] when [v > 2.0] and the gentler [-1.0] when [v < -2.0]; at
    [dist = 5], [v = 10] it is [-3.0]. *)
Theorem lon_command_cases :
  forall (target_speed dist : R) (vs : VehicleState),
    let a := LonController.ComputeControlCommand target_speed vs dist in
    (dist < 11.0 /\ vs.(v) > 2.0 -> a = -3.0) /\
    (dist < 11.0 /\ vs.(v) < -2.0 -> a = -1.0) /\
    (~ (dist < 11.0 /\ (vs.(v) > 2.0 \/ vs.(v) < -2.0)) ->
     a = 0.3 * (target_speed - vs.(v))) /\
    (dist = 5 /\ vs.(v) = 10 -> a = -3.0).
Proof.
  intros target_speed dist vs a. subst a.
  unfold LonController.ComputeControlCommand.
  repeat split; intros H; case_cmp; lra.
Qed.

Lemma lon_command_cases_witness :
  LonController.ComputeControlCommand (25 / 3.6)
    (mkVehicleState 0 0 0 10 0 0 GEAR_DRIVE) 5 = -3.0.
Proof.
  apply (lon_command_cases (25 / 3.6) 5 (mkVehicleState 0 0 0 10 0 0 GEAR_DRIVE)).
  simpl. lra.
Defined.

(** C10: within the stopping distance and with the speed in the closed band
    [-2.0, 2.0] the command is the plain proportional term. *)
Theorem lon_dead_band :
  forall (target_speed dist : R) (vs : VehicleState),
    dist < 11.0 ->
    -2.0 <= vs.(v) <= 2.0 ->
    LonController.ComputeControlCommand target_speed vs dist =
    0.3 * (target_speed - vs.(v)).
Proof.
  intros target_speed dist vs Hd Hv.
  unfold LonController.ComputeControlCommand.
  case_cmp; lra.
Qed.

Lemma lon_dead_band_witness :
  LonController.ComputeControlCommand 5
    (mkVehicleState 0 0 0 2.0 0 0 GEAR_DRIVE) 3 = 0.3 * (5 - 2.0).
Proof.
  apply (lon_dead_band 5 3 (mkVehicleState 0 0 0 2.0 0 0 GEAR_DRIVE));
    simpl; lra.
Defined.

(** ** [pi_2_pi] *)

Lemma PI_gt_3 : 3 < PI.
Proof. pose proof PI2_3_2. lra. Qed.

(** C3 as stated fails: at [13] the result [13 - 2 PI] is above [PI];
    [- PI] is returned unchanged, outside the half-open interval; and two
    full turns added to [0] are not undone. *)
Lemma pi_2_pi_wraps_once :
  pi_2_pi 13 = 13 - 2.0 * PI /\
  ~ (- PI < pi_2_pi 13 <= PI) /\
  ~ (- PI < pi_2_pi (- PI) <= PI) /\
  pi_2_pi (0 + 2 * PI * IZR 2) <> pi_2_pi 0.
Proof.
  pose proof PI_gt_3 as H3. pose proof PI_4 as H4.
  unfold pi_2_pi.
  repeat split; case_cmp; lra.
Qed.

Lemma turns_within_three_half_turns :
  forall (angle : R) (k : Z),
    -3 * PI < angle < 3 * PI ->
    -3 * PI < angle + 2 * PI * IZR k < 3 * PI ->
    (k = -2 \/ k = -1 \/ k = 0 \/ k = 1 \/ k = 2)%Z.
Proof.
  intros angle k Ha Hk. pose proof PI_RGT_0 as Hpi.
  assert (Hlo : IZR (-3) < IZR k).
  { apply (Rmult_lt_reg_l (2 * PI)); [lra|]. simpl. lra. }
  assert (Hhi : IZR k < IZR 3).
  { apply (Rmult_lt_reg_l (2 * PI)); [lra|]. simpl. lra. }
  apply lt_IZR in Hlo, Hhi. lia.
Qed.

(** C3, as the code has it: an angle within three half-turns of zero is
    brought into the closed interval from [- PI] to [PI] (into the half-open
    one unless the angle is [- PI] or [-3 PI]), and whole turns that stay
    strictly within three half-turns are undone, unless the angle is [PI] or
    [- PI]. *)
Theorem pi_2_pi_one_wrap :
  forall angle : R,
    (-3 * PI <= angle <= 3 * PI -> - PI <= pi_2_pi angle <= PI) /\
    (-3 * PI < angle <= 3 * PI -> angle <> - PI ->
     - PI < pi_2_pi angle <= PI) /\
    (forall k : Z,
        -3 * PI < angle < 3 * PI ->
        -3 * PI < angle + 2 * PI * IZR k < 3 * PI ->
        angle <> PI -> angle <> - PI ->
        pi_2_pi (angle + 2 * PI * IZR k) = pi_2_pi angle).
Proof.
  intros angle. pose proof PI_RGT_0 as Hpi. repeat split.
  - unfold pi_2_pi. case_cmp; lra.
  - unfold pi_2_pi. case_cmp; lra.
  - unfold pi_2_pi. case_cmp; lra.
  - unfold pi_2_pi. case_cmp; lra.
  - intros k Ha Hk Hp Hm.
    destruct (turns_within_three_half_turns angle k Ha Hk)
      as [-> | [-> | [-> | [-> | ->]]]];
      simpl IZR in *; unfold pi_2_pi; case_cmp; lra.
Qed.

Lemma pi_2_pi_one_wrap_witness :
  (- PI <= pi_2_pi 4 <= PI) /\
  (- PI < pi_2_pi 4 <= PI) /\
  pi_2_pi (1 + 2 * PI * IZR (-1)) = pi_2_pi 1.
Proof.
  pose proof PI_gt_3 as H3. pose proof PI_4 as H4.
  destruct (pi_2_pi_one_wrap 4) as (Hc & Ho & _).
  destruct (pi_2_pi_one_wrap 1) as (_ & _ & Hk).
  split; [apply Hc; lra|].
  split; [apply Ho; lra|].
  apply Hk; simpl IZR; lra.
Defined.

(** ** [VehicleState] *)

Lemma RegulateInput_steer_saturated :
  forall (cfg : Config) (delta a : R),
    Rabs delta > cfg.(max_steer_angle) ->
    RegulateInput cfg delta a =
    RegulateInput cfg (saturation_boundary cfg.(max_steer_angle) delta) a.
Proof.
  intros cfg delta a H. unfold RegulateInput, saturation_boundary.
  case_abs; f_equal; case_cmp; lra.
Qed.

Lemma RegulateInput_accel_saturated :
  forall (cfg : Config) (delta a : R),
    Rabs a > cfg.(max_acceleration) ->
    RegulateInput cfg delta a =
    RegulateInput cfg delta (saturation_boundary cfg.(max_acceleration) a).
Proof.
  intros cfg delta a H. unfold RegulateInput, saturation_boundary.
  case_abs; f_equal; case_cmp; lra.
Qed.

(** C7: a steering input beyond the steering limit (an acceleration input
    beyond the acceleration limit) gives the same state and outcome as the
    saturation boundary of its side in its place. *)
Theorem update_saturated_input :
  forall (cfg : Config) (self : VehicleState)
         (delta a e_cg0 theta_e0 : R) (gear0 : Gear),
    (Rabs delta > cfg.(max_steer_angle) ->
     UpdateVehicleState cfg self delta a e_cg0 theta_e0 gear0 =
     UpdateVehicleState cfg self
       (saturation_boundary cfg.(max_steer_angle) delta) a
       e_cg0 theta_e0 gear0) /\
    (Rabs a > cfg.(max_acceleration) ->
     UpdateVehicleState cfg self delta a e_cg0 theta_e0 gear0 =
     UpdateVehicleState cfg self delta
       (saturation_boundary cfg.(max_acceleration) a)
       e_cg0 theta_e0 gear0).
Proof.
  intros cfg self delta a e_cg0 theta_e0 gear0.
  split; intros H; unfold UpdateVehicleState.
  - rewrite (RegulateInput_steer_saturated cfg delta a H). reflexivity.
  - rewrite (RegulateInput_accel_saturated cfg delta a H). reflexivity.
Qed.

Lemma update_saturated_input_witness :
  UpdateVehicleState sample_config sample_state 1 0 0 0 GEAR_DRIVE =
  UpdateVehicleState sample_config sample_state
    (saturation_boundary 0.7 1) 0 0 0 GEAR_DRIVE /\
  UpdateVehicleState sample_config sample_state 0 (-6) 0 0 GEAR_DRIVE =
  UpdateVehicleState sample_config sample_state 0
    (saturation_boundary 5.0 (-6)) 0 0 GEAR_DRIVE.
Proof.
  split.
  - apply (update_saturated_input sample_config sample_state 1 0 0 0 GEAR_DRIVE).
    simpl. unfold Rabs. destruct (Rcase_abs 1); lra.
  - apply (update_saturated_input sample_config sample_state 0 (-6) 0 0 GEAR_DRIVE).
    simpl. unfold Rabs. destruct (Rcase_abs (-6)); lra.
Defined.

Lemma RegulateOutput_bound :
  forall (cfg : Config) (v0 : R),
    0 <= cfg.(max_speed) ->
    Rabs (RegulateOutput cfg v0) <= cfg.(max_speed) / 3.6.
Proof.
  intros cfg v0 H. unfold RegulateOutput.
  case_cmp; case_abs; lra.
Qed.

Lemma truediv_nonzero :
  forall a b : R, b <> 0 -> truediv a b = Ok (a / b).
Proof.
  intros a b H. unfold truediv. destruct (Req_dec_T b 0); [contradiction | reflexivity].
Qed.

(** C9: with a non-negative speed limit and a non-zero wheelbase, every call
    of [UpdateVehicleState] returns, and the speed it leaves is within
    [max_speed / 3.6] in absolute value, whatever the speed before. *)
Theorem update_speed_bound :
  forall (cfg : Config),
    0 <= cfg.(max_speed) ->
    cfg.(l_r) + cfg.(l_f) <> 0 ->
    forall (self : VehicleState) (delta a e_cg0 theta_e0 : R) (gear0 : Gear),
      snd (UpdateVehicleState cfg self delta a e_cg0 theta_e0 gear0) = Ok tt /\
      Rabs (fst (UpdateVehicleState cfg self delta a e_cg0 theta_e0 gear0)).(v)
      <= cfg.(max_speed) / 3.6.
Proof.
  intros cfg Hs Hw self delta a e_cg0 theta_e0 gear0.
  unfold UpdateVehicleState.
  destruct (RegulateInput cfg delta a) as [delta' a'].
  cbn [v x y yaw e_cg theta_e gear].
  rewrite (truediv_nonzero _ _ Hw).
  cbn [fst snd v]. split; [reflexivity | apply RegulateOutput_bound; exact Hs].
Qed.

Lemma update_speed_bound_witness :
  snd (UpdateVehicleState sample_config sample_state 0 6 0 0 GEAR_REVERSE) = Ok tt /\
  Rabs (fst (UpdateVehicleState sample_config sample_state 0 6 0 0 GEAR_REVERSE)).(v)
  <= 30 / 3.6.
Proof.
  apply (update_speed_bound sample_config); simpl; lra.
Defined.

(** Why the wheelbase is assumed non-zero: with a zero wheelbase the call
    raises in the heading update and the speed is left as it was. *)
Lemma update_zero_wheelbase :
  forall (cfg : Config) (self : VehicleState)
         (delta a e_cg0 theta_e0 : R) (gear0 : Gear),
    cfg.(l_r) + cfg.(l_f) = 0 ->
    snd (UpdateVehicleState cfg self delta a e_cg0 theta_e0 gear0) =
    Raise ZeroDivisionError /\
    (fst (UpdateVehicleState cfg self delta a e_cg0 theta_e0 gear0)).(v) =
    self.(v).
Proof.
  intros cfg self delta a e_cg0 theta_e0 gear0 Hw.
  unfold UpdateVehicleState.
  destruct (RegulateInput cfg delta a) as [delta' a'].
  cbn [v x y yaw e_cg theta_e gear]. unfold truediv.
  destruct (Req_dec_T (l_r cfg + l_f cfg) 0) as [_ | H]; [|contradiction].
  split; reflexivity.
Qed.

(** ** [LatController.ComputeFeedForward] *)

(** Why the stiffnesses are assumed non-zero: the understeer gradient is
    computed before the gear is looked at. *)
Lemma feedforward_zero_stiffness :
  forall (cfg : Config) (vs : VehicleState) (k_ref : R) (K : ndarray),
    cfg.(c_f) = 0 ->
    LatController.ComputeFeedForward cfg vs k_ref K = Raise ZeroDivisionError.
Proof.
  intros cfg vs k_ref K Hf. unfold LatController.ComputeFeedForward, truediv.
  destruct (Req_dec_T (c_f cfg) 0) as [_ | H]; [reflexivity | contradiction].
Qed.


(** C5: in reverse gear the feedforward term is the wheelbase times the
    reference curvature, whatever the speed and the gain matrix.  The
    cornering stiffnesses and the wheelbase of the configuration are
    non-zero, so that the divisions of the understeer gradient, which are
    evaluated first, do not raise. *)
Theorem feedforward_reverse :
  forall (cfg : Config) (vs : VehicleState) (k_ref : R) (K : ndarray),
    cfg.(c_f) <> 0 ->
    cfg.(c_r) <> 0 ->
    cfg.(l_f) + cfg.(l_r) <> 0 ->
    vs.(gear) = GEAR_REVERSE ->
    LatController.ComputeFeedForward cfg vs k_ref K =
    Ok ((cfg.(l_f) + cfg.(l_r)) * k_ref).
Proof.
  intros cfg vs k_ref K Hf Hr Hw Hg.
  unfold LatController.ComputeFeedForward.
  rewrite (truediv_nonzero _ _ Hf). cbn [bind].
  rewrite (truediv_nonzero _ _ Hw). cbn [bind].
  rewrite (truediv_nonzero _ _ Hr). cbn [bind].
  rewrite (truediv_nonzero _ _ Hw). cbn [bind].
  rewrite Hg. reflexivity.
Qed.

Lemma feedforward_reverse_witness :
  LatController.ComputeFeedForward sample_config sample_state 0.1 (mat1 0) =
  Ok ((1.4 + 1.4) * 0.1).
Proof.
  apply (feedforward_reverse sample_config sample_state 0.1 (mat1 0));
    simpl; try lra; reflexivity.
Defined.

(** ** [TrajectoryAnalyzer] *)

Lemma argmin_from_first_min :
  forall (l pre : list R) (best_i : nat) (best : R),
    (best_i < length pre)%nat ->
    nth best_i pre 0 = best ->
    (forall j, (j < length pre)%nat -> best <= nth j pre 0) ->
    (forall j, (j < best_i)%nat -> best < nth j pre 0) ->
    first_min_index (pre ++ l) (argmin_from best_i best (length pre) l).
Proof.
  induction l as [|a l IH]; intros pre best_i best Hi Hb Hmin Hfirst.
  - simpl. rewrite app_nil_r. subst best. repeat split; auto.
  - simpl.
    assert (Hlen : length (pre ++ [a]) = S (length pre))
      by (rewrite length_app; simpl; lia).
    assert (Hlast : nth (length pre) (pre ++ [a]) 0 = a)
      by (rewrite app_nth2 by lia; rewrite Nat.sub_diag; reflexivity).
    replace (pre ++ a :: l) with ((pre ++ [a]) ++ l)
      by (rewrite <- app_assoc; reflexivity).
    destruct (Rlt_dec a best) as [Hlt | Hge].
    + pose proof (IH (pre ++ [a]) (length pre) a) as IH'.
      rewrite Hlen in IH'. apply IH'.
      * lia.
      * exact Hlast.
      * intros j Hj.
        destruct (Nat.eq_dec j (length pre)) as [-> | Hne].
        -- rewrite Hlast. lra.
        -- rewrite app_nth1 by lia. specialize (Hmin j ltac:(lia)). lra.
      * intros j Hj. rewrite app_nth1 by lia. specialize (Hmin j Hj). lra.
    + pose proof (IH (pre ++ [a]) best_i best) as IH'.
      rewrite Hlen in IH'. apply IH'.
      * lia.
      * rewrite app_nth1 by lia. exact Hb.
      * intros j Hj.
        destruct (Nat.eq_dec j (length pre)) as [-> | Hne].
        -- rewrite Hlast. lra.
        -- rewrite app_nth1 by lia. apply Hmin. lia.
      * intros j Hj. rewrite app_nth1 by lia. apply Hfirst. exact Hj.
Qed.

Lemma np_argmin_first_min :
  forall (l : list R) (i : nat), np_argmin l = Ok i -> first_min_index l i.
Proof.
  intros [|h t] i H; simpl in H; [discriminate|].
  injection H as <-.
  apply (argmin_from_first_min t [h] 0 h); simpl.
  - lia.
  - reflexivity.
  - intros j Hj. assert (j = 0)%nat as -> by lia. lra.
  - intros j Hj. lia.
Qed.

Lemma np_argmin_nonempty :
  forall l : list R, l <> [] -> exists i, np_argmin l = Ok i.
Proof.
  intros [|h t] H; [contradiction | simpl; eauto].
Qed.

Lemma cursor_step :
  forall (self : TrajectoryAnalyzer) (vs : VehicleState),
    (ind_old self <= ind_old (fst (ToTrajectoryFrame self vs)))%nat.
Proof.
  intros self vs. unfold ToTrajectoryFrame.
  destruct (nearest_point self vs) as [[[off dxi] dyi] | e]; simpl; lia.
Qed.

Lemma calls_app :
  forall (states1 states2 : list VehicleState) (self : TrajectoryAnalyzer),
    calls self (states1 ++ states2) = calls (calls self states1) states2.
Proof.
  intros states1 states2 self. unfold calls. apply fold_left_app.
Qed.

Lemma cursor_calls :
  forall (states : list VehicleState) (self : TrajectoryAnalyzer),
    (ind_old self <= ind_old (calls self states))%nat.
Proof.
  induction states as [|vs states IH]; intros self.
  - simpl. lia.
  - change (calls self (vs :: states))
      with (calls (fst (ToTrajectoryFrame self vs)) states).
    pose proof (cursor_step self vs). specialize (IH (fst (ToTrajectoryFrame self vs))).
    lia.
Qed.

Lemma slice_length :
  forall (A : Type) (l : list A) (a b : nat),
    length (slice l a b) = (Nat.min b (length l) - a)%nat.
Proof.
  intros A l a b. unfold slice. rewrite length_skipn, length_firstn. reflexivity.
Qed.

Lemma map2_length :
  forall (A B C : Type) (f : A -> B -> C) (l1 : list A) (l2 : list B),
    length (map2 f l1 l2) = Nat.min (length l1) (length l2).
Proof.
  intros A B C f l1 l2. unfold map2. rewrite length_map, length_combine.
  reflexivity.
Qed.

Lemma slice_nth :
  forall (l : list R) (a b j : nat),
    (j < length (slice l a b))%nat ->
    nth j (slice l a b) 0 = nth (a + j) l 0.
Proof.
  intros l a b j H. rewrite slice_length in H.
  unfold slice. rewrite nth_skipn, nth_firstn.
  replace (Nat.ltb (a + j) b) with true; [reflexivity|].
  symmetry. apply Nat.ltb_lt. lia.
Qed.

Lemma shifted_slice_nth :
  forall (c : R) (l : list R) (a b j : nat),
    (j < length (slice l a b))%nat ->
    nth j (map (fun i => c - i) (slice l a b)) 0 = c - nth (a + j) l 0.
Proof.
  intros c l a b j H.
  rewrite (nth_indep _ 0 (c - 0)) by (rewrite length_map; exact H).
  rewrite (map_nth (fun i => c - i)). rewrite slice_nth by exact H.
  reflexivity.
Qed.

(** With [x_] and [y_] of one length, the values scanned are the Euclidean
    distances from the vehicle to the points of the suffix. *)
Lemma scan_distance_nth :
  forall (self : TrajectoryAnalyzer) (vs : VehicleState) (h : list R),
    length self.(x_) = length self.(y_) ->
    np_hypot (dx self vs) (dy self vs) = Ok h ->
    forall j : nat,
      (j < length h)%nat ->
      nth j h 0 =
      hypot (vs.(x) - nth (self.(ind_old) + j) self.(x_) 0)
            (vs.(y) - nth (self.(ind_old) + j) self.(y_) 0).
Proof.
  intros self vs h Hxy Hh j Hj.
  assert (Hlen : length (dx self vs) = length (dy self vs)).
  { unfold dx, dy. rewrite !length_map, !slice_length, Hxy. reflexivity. }
  unfold np_hypot in Hh. rewrite Hlen, Nat.eqb_refl in Hh.
  injection Hh as <-.
  rewrite map2_length, <- Hlen, Nat.min_id in Hj.
  unfold map2.
  rewrite (nth_indep _ 0 ((fun p => hypot (fst p) (snd p)) (0, 0)))
    by (rewrite length_map, length_combine, <- Hlen, Nat.min_id; exact Hj).
  rewrite (map_nth (fun p => hypot (fst p) (snd p))).
  rewrite combine_nth by exact Hlen. cbn [fst snd].
  assert (Hjx : (j < length (slice (x_ self) (ind_old self) (ind_end self)))%nat).
  { unfold dx in Hj. rewrite length_map in Hj. exact Hj. }
  assert (Hjy : (j < length (slice (y_ self) (ind_old self) (ind_end self)))%nat).
  { rewrite Hlen in Hj. unfold dy in Hj. rewrite length_map in Hj. exact Hj. }
  unfold dx, dy. rewrite !shifted_slice_nth by assumption. reflexivity.
Qed.

(** C4: over any sequence of calls on one analyzer the cursor [ind_old]
    never decreases.  A call whose nearest-point scan succeeds adds to the
    cursor the offset found, which is the lowest index at which the values
    scanned are minimal, and these values are the distances from the vehicle
    to the points of the suffix that starts at the cursor; a call whose scan
    raises leaves the analyzer as it was. *)
Theorem cursor_never_decreases :
  forall (self : TrajectoryAnalyzer) (before after : list VehicleState),
    (ind_old (calls self before) <= ind_old (calls self (before ++ after)))%nat /\
    forall (vs : VehicleState),
      (forall off dxi dyi,
          nearest_point self vs = Ok (off, dxi, dyi) ->
          ind_old (fst (ToTrajectoryFrame self vs)) = (ind_old self + off)%nat /\
          exists h,
            np_hypot (dx self vs) (dy self vs) = Ok h /\
            first_min_index h off /\
            (length self.(x_) = length self.(y_) ->
             forall j : nat,
               (j < length h)%nat ->
               nth j h 0 =
               hypot (vs.(x) - nth (self.(ind_old) + j) self.(x_) 0)
                     (vs.(y) - nth (self.(ind_old) + j) self.(y_) 0))) /\
      (forall e, nearest_point self vs = Raise e ->
                 fst (ToTrajectoryFrame self vs) = self).
Proof.
  intros self before after. split.
  - rewrite calls_app. apply cursor_calls.
  - intros vs. split.
    + intros off dxi dyi H. unfold ToTrajectoryFrame. rewrite H. simpl.
      split; [reflexivity|].
      unfold nearest_point in H.
      destruct (np_hypot (dx self vs) (dy self vs)) as [h|e] eqn:Hh;
        [|discriminate].
      exists h. split; [reflexivity|].
      split; [| intros Hxy; apply (scan_distance_nth self vs h Hxy Hh)].
      cbn [bind] in H.
      destruct (np_argmin h) as [i|e] eqn:Hi; [|discriminate].
      cbn [bind] in H.
      destruct (getitem (dx self vs) i); [|discriminate].
      destruct (getitem (dy self vs) i); [|discriminate].
      cbn [bind] in H. injection H as -> _ _.
      apply np_argmin_first_min. exact Hi.
    + intros e H. unfold ToTrajectoryFrame. rewrite H. reflexivity.
Qed.

Lemma cursor_never_decreases_witness :
  ind_old (fst (ToTrajectoryFrame sample_analyzer sample_state)) = (0 + 0)%nat /\
  exists h,
    np_hypot (dx sample_analyzer sample_state)
             (dy sample_analyzer sample_state) = Ok h /\
    first_min_index h 0 /\
    (length sample_analyzer.(x_) = length sample_analyzer.(y_) ->
     forall j : nat,
       (j < length h)%nat ->
       nth j h 0 =
       hypot (sample_state.(x) - nth (sample_analyzer.(ind_old) + j)
                                     sample_analyzer.(x_) 0)
             (sample_state.(y) - nth (sample_analyzer.(ind_old) + j)
                                     sample_analyzer.(y_) 0)).
Proof.
  apply (proj1 (proj2 (cursor_never_decreases sample_analyzer [] [])
                 sample_state) 0%nat (0 - 0) (0 - 0)).
  unfold nearest_point, dx, dy, np_hypot, np_argmin. simpl.
  destruct (Rlt_dec (hypot (0 - 0) (0 - 0)) (hypot (0 - 0) (0 - 0))) as [H | H].
  - exfalso. lra.
  - reflexivity.
Defined.

Lemma getitem_in_range :
  forall (A : Type) (l : list A) (i : nat),
    (i < length l)%nat -> exists a, getitem l i = Ok a.
Proof.
  intros A l i H. unfold getitem.
  destruct (nth_error l i) as [a|] eqn:E; [eauto|].
  apply nth_error_None in E. lia.
Qed.

Lemma nearest_point_on_path :
  forall (n : nat) (self : TrajectoryAnalyzer) (vs : VehicleState),
    on_path n self ->
    exists off dxi dyi,
      nearest_point self vs = Ok (off, dxi, dyi) /\
      (ind_old self + off < n)%nat.
Proof.
  intros n self vs (Hx & Hy & Hyaw & Hk & He & Hi).
  assert (Hdx : length (dx self vs) = (n - ind_old self)%nat).
  { unfold dx. rewrite length_map, slice_length, He, Hx. lia. }
  assert (Hdy : length (dy self vs) = (n - ind_old self)%nat).
  { unfold dy. rewrite length_map, slice_length, He, Hy. lia. }
  unfold nearest_point, np_hypot.
  rewrite Hdx, Hdy, Nat.eqb_refl. cbn [bind].
  assert (Hh : length (map2 hypot (dx self vs) (dy self vs))
               = (n - ind_old self)%nat).
  { rewrite map2_length, Hdx, Hdy. lia. }
  destruct (np_argmin_nonempty (map2 hypot (dx self vs) (dy self vs)))
    as [off Hoff].
  { intros E. rewrite E in Hh. simpl in Hh. lia. }
  rewrite Hoff. cbn [bind].
  destruct (np_argmin_first_min _ _ Hoff) as [Hlt _]. rewrite Hh in Hlt.
  destruct (getitem_in_range R (dx self vs) off) as [dxi Ex]; [lia|].
  destruct (getitem_in_range R (dy self vs) off) as [dyi Ey]; [lia|].
  rewrite Ex, Ey. cbn [bind].
  exists off, dxi, dyi. split; [reflexivity | lia].
Qed.

Lemma call_on_path :
  forall (n : nat) (self : TrajectoryAnalyzer) (vs : VehicleState),
    on_path n self ->
    on_path n (fst (ToTrajectoryFrame self vs)) /\
    returns (snd (ToTrajectoryFrame self vs)).
Proof.
  intros n self vs H.
  destruct (nearest_point_on_path n self vs H) as (off & dxi & dyi & E & Hlt).
  destruct H as (Hx & Hy & Hyaw & Hk & He & Hi).
  unfold ToTrajectoryFrame. rewrite E. cbn [fst snd].
  split.
  - unfold on_path. cbn [x_ y_ yaw_ k_ ind_old ind_end]. auto 10.
  - cbn [x_ y_ yaw_ k_ ind_old ind_end].
    destruct (getitem_in_range R (yaw_ self) (ind_old self + off)) as [a Ea]; [lia|].
    destruct (getitem_in_range R (k_ self) (ind_old self + off)) as [b Eb]; [lia|].
    rewrite Ea. cbn [bind]. rewrite Eb. cbn [bind].
    unfold returns. eauto.
Qed.

Lemma calls_on_path :
  forall (n : nat) (states : list VehicleState) (self : TrajectoryAnalyzer),
    on_path n self -> on_path n (calls self states).
Proof.
  intros n states. induction states as [|vs states IH]; intros self H.
  - exact H.
  - change (calls self (vs :: states))
      with (calls (fst (ToTrajectoryFrame self vs)) states).
    apply IH. apply call_on_path. exact H.
Qed.

(** C8: for an analyzer built from non-empty arrays of equal length, after
    any sequence of calls the cursor is at most [len - 1]; the suffix of the
    next scan is not empty, the reads at the cursor are within [yaw_] and
    [k_], and the next call returns. *)
Theorem cursor_stays_on_path :
  forall (xs ys yaws ks : list R),
    xs <> [] ->
    length ys = length xs ->
    length yaws = length xs ->
    length ks = length xs ->
    forall (states : list VehicleState),
      let self := calls (TrajectoryAnalyzer_init xs ys yaws ks) states in
      (self.(ind_old) <= length xs - 1)%nat /\
      slice self.(x_) self.(ind_old) self.(ind_end) <> [] /\
      (self.(ind_old) < length self.(yaw_))%nat /\
      (self.(ind_old) < length self.(k_))%nat /\
      forall vs : VehicleState, returns (snd (ToTrajectoryFrame self vs)).
Proof.
  intros xs ys yaws ks Hne Hy Hyaw Hk states self.
  assert (Hinit : on_path (length xs) (TrajectoryAnalyzer_init xs ys yaws ks)).
  { unfold on_path, TrajectoryAnalyzer_init. cbn [x_ y_ yaw_ k_ ind_old ind_end].
    repeat split; auto. destruct xs; [contradiction | simpl; lia]. }
  pose proof (calls_on_path (length xs) states _ Hinit) as H.
  fold self in H.
  pose proof H as (Hx' & Hy' & Hyaw' & Hk' & He' & Hi').
  repeat split; try lia.
  - intros E. apply (f_equal (@length R)) in E.
    rewrite slice_length, He', Hx' in E. simpl in E. lia.
  - intros vs. apply (call_on_path (length xs) self vs H).
Qed.

Lemma cursor_stays_on_path_witness :
  let self := calls sample_analyzer [sample_state; sample_state] in
  (self.(ind_old) <= 2 - 1)%nat /\
  slice self.(x_) self.(ind_old) self.(ind_end) <> [] /\
  (self.(ind_old) < length self.(yaw_))%nat /\
  (self.(ind_old) < length self.(k_))%nat /\
  forall vs : VehicleState, returns (snd (ToTrajectoryFrame self vs)).
Proof.
  apply (cursor_stays_on_path [0; 0] [0; 0] [0; 0] [0; 0]).
  - discriminate.
  - reflexivity.
  - reflexivity.
  - reflexivity.
Defined.

(** ** [LatController.SolveLQRProblem] *)

(** *** Shapes *)

Lemma columns_length :
  forall X : ndarray, length (columns X) = shape1 X.
Proof.
  intros X. unfold columns. rewrite length_map, length_seq. reflexivity.
Qed.

Lemma matmul_shape :
  forall X Y Z : ndarray,
    matmul X Y = Ok Z ->
    shape0 Z = shape0 X /\ shape1 Z = shape1 Y /\
    length (rows Z) = length (rows X) /\
    Forall (fun r => length r = shape1 Y) (rows Z).
Proof.
  intros X Y Z H. unfold matmul in H.
  destruct (Nat.eqb (shape1 X) (shape0 Y)); [|discriminate].
  injection H as <-. cbn [shape0 shape1 rows].
  repeat split; try reflexivity.
  - apply length_map.
  - apply Forall_forall. intros r Hr. apply in_map_iff in Hr.
    destruct Hr as (r0 & <- & _). rewrite length_map. apply columns_length.
Qed.

Lemma map2_plus_zero :
  forall r : list R, map2 Rplus r (repeat 0 (length r)) = r.
Proof.
  induction r as [|a r IH]; [reflexivity|].
  unfold map2 in *. simpl. rewrite IH, Rplus_0_r. reflexivity.
Qed.

Lemma map2_plus_zero_rows :
  forall (m : nat) (rs : list (list R)),
    Forall (fun r => length r = m) rs ->
    map2 (map2 Rplus) rs (repeat (repeat 0 m) (length rs)) = rs.
Proof.
  intros m rs H. induction H as [|r rs Hr _ IH]; [reflexivity|].
  unfold map2 at 1. simpl. fold (map2 (map2 Rplus) rs (repeat (repeat 0 m) (length rs))).
  rewrite IH. rewrite <- Hr at 1. rewrite map2_plus_zero. reflexivity.
Qed.

Lemma np_add_zeros :
  forall (X : ndarray) (n m : nat),
    shape0 X = n -> shape1 X = m ->
    length (rows X) = n ->
    Forall (fun r => length r = m) (rows X) ->
    np_add X (np_zeros n m) = Ok X.
Proof.
  intros [s0 s1 rs] n m H0 H1 Hl Hr. simpl in *. subst s0 s1.
  unfold np_add, elementwise, same_shape, np_zeros. cbn [shape0 shape1 rows].
  rewrite !Nat.eqb_refl. cbn [andb].
  rewrite <- Hl at 2. rewrite (map2_plus_zero_rows m rs Hr). reflexivity.
Qed.

Lemma transpose_zeros :
  forall n m : nat, transpose (np_zeros n m) = np_zeros m n.
Proof.
  intros n m. unfold transpose, np_zeros, columns. cbn [shape0 shape1 rows].
  f_equal.
  transitivity (map (fun _ : nat => repeat 0 n) (seq 0 m)).
  - apply map_ext. intros j. rewrite map_repeat. f_equal. apply nth_repeat.
  - rewrite map_const, length_seq. reflexivity.
Qed.

(** *** The numpy model on small arrays *)

Ltac reals_eq :=
  repeat match goal with
         | |- @eq R _ _ => field
         | |- @eq (list _) (_ :: _) (_ :: _) => apply (f_equal2 (@cons _))
         | |- @eq (list _) [] [] => reflexivity
         | |- @eq (_ * _) (_, _) (_, _) => apply (f_equal2 (@pair _ _))
         end.

Ltac zero_tests :=
  repeat match goal with
         | |- context [Req_dec_T ?a 0] =>
             let H := fresh "H" in
             destruct (Req_dec_T a 0) as [H | H]; try (exfalso; lra)
         end.

Ltac greville_eval :=
  unfold greville_step, lincomb, vec_is_zero, vscale, dot, map2; simpl;
  zero_tests; simpl; reals_eq.

(** On an invertible array the pseudo-inverse is the inverse. *)
Example pinv_invertible_2x2 :
  np_linalg_pinv (mkarray 2 2 [[1; 2]; [3; 4]]) =
  mkarray 2 2 [[-2; 1]; [3 / 2; - (1 / 2)]].
Proof.
  unfold np_linalg_pinv.
  change (columns (mkarray 2 2 [[1; 2]; [3; 4]])) with [[1; 3]; [2; 4]].
  cbn [fold_left shape0 shape1].
  replace (greville_step 2 ([], []) [1; 3])
    with ([[1; 3]], [[1 / 10; 3 / 10]]) by (symmetry; greville_eval).
  replace (greville_step 2 ([[1; 3]], [[1 / 10; 3 / 10]]) [2; 4])
    with ([[1; 3]; [2; 4]], [[-2; 1]; [3 / 2; - (1 / 2)]])
    by (symmetry; greville_eval).
  reflexivity.
Qed.

(** A singular array has a pseudo-inverse. *)
Example pinv_rank_one_2x2 :
  np_linalg_pinv (mkarray 2 2 [[1; 1]; [1; 1]]) =
  mkarray 2 2 [[1 / 4; 1 / 4]; [1 / 4; 1 / 4]].
Proof.
  unfold np_linalg_pinv.
  change (columns (mkarray 2 2 [[1; 1]; [1; 1]])) with [[1; 1]; [1; 1]].
  cbn [fold_left shape0 shape1].
  replace (greville_step 2 ([], []) [1; 1])
    with ([[1; 1]], [[1 / 2; 1 / 2]]) by (symmetry; greville_eval).
  replace (greville_step 2 ([[1; 1]], [[1 / 2; 1 / 2]]) [1; 1])
    with ([[1; 1]; [1; 1]], [[1 / 4; 1 / 4]; [1 / 4; 1 / 4]])
    by (symmetry; greville_eval).
  reflexivity.
Qed.

Example pinv_column :
  np_linalg_pinv (mkarray 2 1 [[1]; [2]]) = mkarray 1 2 [[1 / 5; 2 / 5]].
Proof.
  unfold np_linalg_pinv.
  change (columns (mkarray 2 1 [[1]; [2]])) with [[1; 2]].
  cbn [fold_left shape0 shape1].
  replace (greville_step 2 ([], []) [1; 2])
    with ([[1; 2]], [[1 / 5; 2 / 5]]) by (symmetry; greville_eval).
  reflexivity.
Qed.

Example inv_2x2 :
  np_linalg_inv (mkarray 2 2 [[1; 2]; [3; 4]]) =
  Ok (mkarray 2 2 [[-2; 1]; [3 / 2; - (1 / 2)]]).
Proof.
  unfold np_linalg_inv, adjugate, minor. simpl. unfold sign. simpl.
  zero_tests. apply f_equal. apply (f_equal (mkarray 2 2)). reals_eq.
Qed.

Example inv_singular_2x2 :
  np_linalg_inv (mkarray 2 2 [[1; 2]; [2; 4]]) = Raise LinAlgError.
Proof.
  unfold np_linalg_inv, adjugate, minor. simpl. unfold sign. simpl.
  zero_tests. reflexivity.
Qed.

(** *** The loop against the iteration of the specification *)

Lemma matmul_transpose_shape :
  forall X P Y Z W : ndarray,
    matmul (transpose X) P = Ok Z ->
    matmul Z Y = Ok W ->
    shape0 W = shape1 X /\ shape1 W = shape1 Y /\
    length (rows W) = shape1 X /\
    Forall (fun r => length r = shape1 Y) (rows W).
Proof.
  intros X P Y Z W H1 H2.
  destruct (matmul_shape _ _ _ H1) as (Ha & _ & Hb & _).
  destruct (matmul_shape _ _ _ H2) as (Hc & Hd & He & Hf).
  cbn [transpose shape0 rows] in Ha, Hb. rewrite columns_length in Hb.
  repeat split; first [exact Hf | congruence].
Qed.

Lemma loop_body_update :
  forall (A B Q R0 P : ndarray),
    shape1 A = shape0 Q ->
    shape1 B = shape1 R0 ->
    LatController.loop_body A B Q R0 (np_zeros (shape0 Q) (shape1 R0)) P =
    (P_next <- RiccatiSpec.update RiccatiSpec.pseudo_inverse A B Q R0 P ;;
     d <- RiccatiSpec.change P P_next ;;
     Ok (P_next, d)).
Proof.
  intros A B Q R0 P HA HB.
  unfold LatController.loop_body, RiccatiSpec.update, RiccatiSpec.change,
    RiccatiSpec.pseudo_inverse.
  rewrite transpose_zeros.
  destruct (matmul (transpose A) P) as [ATP|e] eqn:E1; cbn [bind]; [|reflexivity].
  destruct (matmul ATP A) as [ATPA|e] eqn:E2; cbn [bind]; [|reflexivity].
  destruct (matmul ATP B) as [ATPB|e] eqn:E3; cbn [bind]; [|reflexivity].
  destruct (matmul_transpose_shape _ _ _ _ _ E1 E3) as (S0 & S1 & Sl & Sr).
  rewrite (np_add_zeros ATPB (shape0 Q) (shape1 R0)); try congruence;
    [| rewrite <- HB; exact Sr].
  cbn [bind].
  destruct (matmul (transpose B) P) as [BTP|e] eqn:E4; cbn [bind]; [|reflexivity].
  destruct (matmul BTP B) as [BTPB|e] eqn:E5; cbn [bind]; [|reflexivity].
  destruct (np_add R0 BTPB) as [S|e] eqn:E6; cbn [bind]; [|reflexivity].
  destruct (matmul ATPB (np_linalg_pinv S)) as [L|e] eqn:E7; cbn [bind];
    [|reflexivity].
  destruct (matmul BTP A) as [BTPA|e] eqn:E8; cbn [bind]; [|reflexivity].
  destruct (matmul_transpose_shape _ _ _ _ _ E4 E8) as (T0 & T1 & Tl & Tr).
  rewrite (np_add_zeros BTPA (shape1 R0) (shape0 Q)); try congruence;
    [| rewrite <- HA; exact Tr].
  cbn [bind].
  destruct (matmul L BTPA) as [LR|e]; cbn [bind]; [|reflexivity].
  destruct (np_sub ATPA LR) as [D|e]; cbn [bind]; [|reflexivity].
  destruct (np_add D Q) as [P_next|e]; cbn [bind]; [|reflexivity].
  destruct (np_sub P_next P) as [E|e]; cbn [bind]; reflexivity.
Qed.

Lemma while_loop_stops :
  forall (A B Q R0 : ndarray) (tolerance : R) (M : ndarray)
         (n : nat) (P : ndarray) (diff : LatController.xreal),
    LatController.xreal_gt diff tolerance = false ->
    LatController.while_loop A B Q R0 tolerance M n P diff = Ok (P, diff).
Proof.
  intros A B Q R0 tolerance M n P diff H.
  destruct n; simpl; [reflexivity | rewrite H; reflexivity].
Qed.

Lemma at_most_not_gt :
  forall (tolerance d : R),
    RiccatiSpec.at_most tolerance d =
    negb (LatController.xreal_gt (LatController.Finite d) tolerance).
Proof.
  intros tolerance d. unfold RiccatiSpec.at_most, LatController.xreal_gt.
  destruct (Rle_dec d tolerance), (Rgt_dec d tolerance); try reflexivity; lra.
Qed.

Lemma while_loop_iterate :
  forall (A B Q R0 : ndarray) (tolerance : R),
    shape1 A = shape0 Q ->
    shape1 B = shape1 R0 ->
    forall (n : nat) (P : ndarray) (diff : LatController.xreal),
      LatController.xreal_gt diff tolerance = true ->
      (r <- LatController.while_loop A B Q R0 tolerance
              (np_zeros (shape0 Q) (shape1 R0)) n P diff ;;
       Ok (fst r)) =
      RiccatiSpec.iterate RiccatiSpec.pseudo_inverse A B Q R0
        (RiccatiSpec.at_most tolerance) n P.
Proof.
  intros A B Q R0 tolerance HA HB.
  induction n as [|n IH]; intros P diff Hgt.
  - reflexivity.
  - cbn [LatController.while_loop RiccatiSpec.iterate].
    rewrite Hgt, (loop_body_update A B Q R0 P HA HB).
    destruct (RiccatiSpec.update RiccatiSpec.pseudo_inverse A B Q R0 P)
      as [P_next|e]; cbn [bind]; [|reflexivity].
    destruct (RiccatiSpec.change P P_next) as [d|e]; cbn [bind]; [|reflexivity].
    rewrite at_most_not_gt.
    destruct (LatController.xreal_gt (LatController.Finite d) tolerance) eqn:Hd;
      cbn [negb].
    + apply IH. exact Hd.
    + rewrite while_loop_stops by exact Hd. reflexivity.
Qed.

Lemma compatible_dimensions_shapes :
  forall (A B Q R0 : ndarray),
    LatController.compatible_dimensions A B Q R0 = true ->
    shape1 A = shape0 Q /\ shape1 B = shape1 R0.
Proof.
  intros A B Q R0 Hdim.
  unfold LatController.compatible_dimensions in Hdim.
  repeat (apply andb_prop in Hdim; destruct Hdim as [Hdim ?]).
  repeat match goal with
         | H : Nat.eqb _ _ = true |- _ => apply Nat.eqb_eq in H
         end.
  split; congruence.
Qed.

Lemma feedback_gain_gain :
  forall (A B Q R0 P : ndarray),
    shape1 A = shape0 Q ->
    LatController.feedback_gain A B R0 (np_zeros (shape0 Q) (shape1 R0)) P =
    RiccatiSpec.gain np_linalg_inv A B R0 P.
Proof.
  intros A B Q R0 P HA.
  unfold LatController.feedback_gain, RiccatiSpec.gain. rewrite transpose_zeros.
  destruct (matmul (transpose B) P) as [BTP|e] eqn:E1; cbn [bind]; [|reflexivity].
  destruct (matmul BTP B) as [BTPB|e] eqn:E0; cbn [bind]; [|reflexivity].
  destruct (np_add BTPB R0) as [S|e] eqn:E3; cbn [bind]; [|reflexivity].
  destruct (np_linalg_inv S) as [Sinv|e]; cbn [bind]; [|reflexivity].
  destruct (matmul BTP A) as [BTPA|e] eqn:E2; cbn [bind]; [|reflexivity].
  destruct (matmul_transpose_shape _ _ _ _ _ E1 E2) as (T0 & T1 & Tl & Tr).
  destruct (matmul_transpose_shape _ _ _ _ _ E1 E0) as (U0 & U1 & _ & _).
  unfold np_add, elementwise, same_shape in E3.
  destruct (Nat.eqb (shape0 BTPB) (shape0 R0) && Nat.eqb (shape1 BTPB) (shape1 R0))
    eqn:Hs; [|discriminate].
  apply andb_prop in Hs. destruct Hs as [Hs0 Hs1].
  apply Nat.eqb_eq in Hs0, Hs1.
  rewrite (np_add_zeros BTPA (shape1 R0) (shape0 Q)); try congruence;
    [| rewrite <- HA; exact Tr].
  reflexivity.
Qed.

Lemma SolveLQRProblem_via_iterate :
  forall (A B Q R0 : ndarray) (tolerance : R) (max_num_iteration : Z),
    LatController.compatible_dimensions A B Q R0 = true ->
    LatController.SolveLQRProblem A B Q R0 tolerance max_num_iteration =
    (P <- RiccatiSpec.iterate RiccatiSpec.pseudo_inverse A B Q R0
            (RiccatiSpec.at_most tolerance) (Z.to_nat max_num_iteration) Q ;;
     RiccatiSpec.gain np_linalg_inv A B R0 P).
Proof.
  intros A B Q R0 tolerance max_num_iteration Hdim.
  unfold LatController.SolveLQRProblem.
  rewrite Hdim. cbn [LatController.assert bind].
  destruct (compatible_dimensions_shapes A B Q R0 Hdim) as [HA HB].
  rewrite <- (while_loop_iterate A B Q R0 tolerance HA HB
                (Z.to_nat max_num_iteration) Q LatController.PosInf eq_refl).
  destruct (LatController.while_loop A B Q R0 tolerance
              (np_zeros (shape0 Q) (shape1 R0)) (Z.to_nat max_num_iteration)
              Q LatController.PosInf) as [[P diff]|e]; cbn [bind fst];
    [|reflexivity].
  apply feedback_gain_gain. exact HA.
Qed.

(** C1, as the code has it: on arrays that pass the entry assertion,
    [SolveLQRProblem] is the Riccati iteration from [P_0 = Q] with the update
    [A^T P A - A^T P B pinv(R + B^T P B) B^T P A + Q], stopped as soon as the
    maximum absolute elementwise change is at most [tolerance] (the loop goes
    on only while it is greater) or after [max_num_iteration] updates, and
    it returns [inv(B^T P B + R) (B^T P A)] for the last iterate [P]; on
    arrays that fail the assertion it raises [AssertionError]. *)
Theorem solve_is_riccati_iteration :
  forall (A B Q R0 : ndarray) (tolerance : R) (max_num_iteration : Z),
    (LatController.compatible_dimensions A B Q R0 = true ->
     LatController.SolveLQRProblem A B Q R0 tolerance max_num_iteration =
     RiccatiSpec.solve RiccatiSpec.pseudo_inverse np_linalg_inv A B Q R0
       (RiccatiSpec.at_most tolerance) max_num_iteration) /\
    (LatController.compatible_dimensions A B Q R0 = false ->
     LatController.SolveLQRProblem A B Q R0 tolerance max_num_iteration =
     Raise AssertionError).
Proof.
  intros A B Q R0 tolerance max_num_iteration. split; intros Hdim.
  - unfold RiccatiSpec.solve.
    apply SolveLQRProblem_via_iterate. exact Hdim.
  - unfold LatController.SolveLQRProblem. rewrite Hdim. reflexivity.
Qed.

(** *** Scalars: the solver on 1 x 1 arrays *)

Lemma transpose_mat1 : forall s : R, transpose (mat1 s) = mat1 s.
Proof. reflexivity. Qed.

Lemma matmul_mat1 :
  forall a b : R, matmul (mat1 a) (mat1 b) = Ok (mat1 (a * b)).
Proof.
  intros a b. unfold matmul, mat1, columns, dot, map2. simpl.
  rewrite Rplus_0_r. reflexivity.
Qed.

Lemma np_add_mat1 :
  forall a b : R, np_add (mat1 a) (mat1 b) = Ok (mat1 (a + b)).
Proof. reflexivity. Qed.

Lemma np_sub_mat1 :
  forall a b : R, np_sub (mat1 a) (mat1 b) = Ok (mat1 (a - b)).
Proof. reflexivity. Qed.

Lemma np_max_abs_mat1 :
  forall a : R, np_max (np_abs (mat1 a)) = Ok (Rabs a).
Proof. reflexivity. Qed.

Lemma np_linalg_pinv_mat1 :
  forall s : R, np_linalg_pinv (mat1 s) = mat1 (pinv1 s).
Proof.
  intros s.
  unfold np_linalg_pinv, mat1, columns, greville_step, lincomb, vec_is_zero,
    vscale, dot, map2, pinv1.
  simpl.
  destruct (Req_dec_T (s - 0) 0) as [Hz | Hnz], (Req_dec_T s 0) as [Hs | Hs];
    simpl; try (exfalso; lra).
  - do 3 f_equal. field.
  - do 3 f_equal. field. exact Hs.
Qed.

Lemma np_linalg_inv_mat1 :
  forall s : R,
    np_linalg_inv (mat1 s) =
    if Req_dec_T s 0 then Raise LinAlgError else Ok (mat1 (/ s)).
Proof.
  intros s. unfold np_linalg_inv, mat1, adjugate, minor. simpl.
  unfold sign. simpl.
  destruct (Req_dec_T (1 * s * 1 + 0) 0) as [Hz | Hnz], (Req_dec_T s 0) as [Hs | Hs];
    try (exfalso; lra); [reflexivity|].
  replace (1 * 1 / (1 * s * 1 + 0)) with (/ s) by (field; exact Hs).
  reflexivity.
Qed.

Lemma update_mat1 :
  forall a b q r p : R,
    RiccatiSpec.update RiccatiSpec.pseudo_inverse
      (mat1 a) (mat1 b) (mat1 q) (mat1 r) (mat1 p) =
    Ok (mat1 (a * p * a - a * p * b * pinv1 (r + b * p * b) * (b * p * a) + q)).
Proof.
  intros a b q r p. unfold RiccatiSpec.update, RiccatiSpec.pseudo_inverse.
  repeat (rewrite ?transpose_mat1, ?matmul_mat1, ?np_add_mat1, ?np_sub_mat1,
           ?np_linalg_pinv_mat1; cbn [bind]).
  reflexivity.
Qed.

Lemma change_mat1 :
  forall p p' : R, RiccatiSpec.change (mat1 p) (mat1 p') = Ok (Rabs (p' - p)).
Proof. reflexivity. Qed.

Lemma gain_mat1 :
  forall a b r p : R,
    b * p * b + r <> 0 ->
    RiccatiSpec.gain np_linalg_inv (mat1 a) (mat1 b) (mat1 r) (mat1 p) =
    Ok (mat1 (/ (b * p * b + r) * (b * p * a))).
Proof.
  intros a b r p H. unfold RiccatiSpec.gain.
  repeat (rewrite ?transpose_mat1, ?matmul_mat1, ?np_add_mat1; cbn [bind]).
  rewrite np_linalg_inv_mat1.
  destruct (Req_dec_T (b * p * b + r) 0) as [Hz | _]; [contradiction|].
  cbn [bind].
  repeat (rewrite ?transpose_mat1, ?matmul_mat1; cbn [bind]).
  reflexivity.
Qed.

Lemma gain_mat1_singular :
  forall a b r p : R,
    b * p * b + r = 0 ->
    RiccatiSpec.gain np_linalg_inv (mat1 a) (mat1 b) (mat1 r) (mat1 p) =
    Raise LinAlgError.
Proof.
  intros a b r p H. unfold RiccatiSpec.gain.
  repeat (rewrite ?transpose_mat1, ?matmul_mat1, ?np_add_mat1; cbn [bind]).
  rewrite np_linalg_inv_mat1.
  destruct (Req_dec_T (b * p * b + r) 0) as [_ | Hnz]; [reflexivity | contradiction].
Qed.

Ltac scalar_eq := apply (f_equal (fun z : R => Ok (mat1 z))).

Lemma first_update_value :
  1 * 1 * 1 - 1 * 1 * 1 * pinv1 (1 + 1 * 1 * 1) * (1 * 1 * 1) + 1 = 3 / 2.
Proof.
  unfold pinv1. destruct (Req_dec_T (1 + 1 * 1 * 1) 0); [lra | field].
Qed.

Lemma Rabs_half : Rabs (3 / 2 - 1) = 1 / 2.
Proof. unfold Rabs. destruct (Rcase_abs (3 / 2 - 1)); lra. Qed.

(** The code on [A = B = Q = R = [[1]]], [tolerance = 1/2]: one update, whose
    change is exactly the tolerance, then the gain of [P = 3/2]. *)
Lemma solve_unit_value :
  LatController.SolveLQRProblem (mat1 1) (mat1 1) (mat1 1) (mat1 1) (1 / 2) 150 =
  Ok (mat1 (3 / 5)).
Proof.
  rewrite SolveLQRProblem_via_iterate by reflexivity.
  change (Z.to_nat 150) with (S 149). cbn [RiccatiSpec.iterate].
  rewrite update_mat1, first_update_value. cbn [bind].
  rewrite change_mat1, Rabs_half. cbn [bind].
  unfold RiccatiSpec.at_most.
  destruct (Rle_dec (1 / 2) (1 / 2)) as [_ | H]; [|exfalso; lra].
  cbn [bind].
  rewrite gain_mat1 by lra.
  scalar_eq. field.
Qed.

Lemma np_linalg_inv_inverts_scalars : inverts_scalars np_linalg_inv.
Proof.
  intros s Hs. rewrite np_linalg_inv_mat1.
  destruct (Req_dec_T s 0); [contradiction | reflexivity].
Qed.

Lemma pseudo_inverse_inverts_scalars :
  inverts_scalars RiccatiSpec.pseudo_inverse.
Proof.
  intros s Hs. unfold RiccatiSpec.pseudo_inverse.
  rewrite np_linalg_pinv_mat1. unfold pinv1.
  destruct (Req_dec_T s 0); [contradiction | reflexivity].
Qed.

Lemma update_mat1_inverse :
  forall (f : ndarray -> result ndarray) (a b q r p : R),
    inverts_scalars f ->
    r + b * p * b <> 0 ->
    RiccatiSpec.update f (mat1 a) (mat1 b) (mat1 q) (mat1 r) (mat1 p) =
    Ok (mat1 (a * p * a - a * p * b * / (r + b * p * b) * (b * p * a) + q)).
Proof.
  intros f a b q r p Hf Hnz. unfold RiccatiSpec.update.
  repeat (rewrite ?transpose_mat1, ?matmul_mat1, ?np_add_mat1; cbn [bind]).
  rewrite (Hf _ Hnz). cbn [bind].
  repeat (rewrite ?transpose_mat1, ?matmul_mat1, ?np_add_mat1, ?np_sub_mat1;
          cbn [bind]).
  reflexivity.
Qed.

Lemma gain_mat1_inverse :
  forall (g : ndarray -> result ndarray) (a b r p : R),
    inverts_scalars g ->
    b * p * b + r <> 0 ->
    RiccatiSpec.gain g (mat1 a) (mat1 b) (mat1 r) (mat1 p) =
    Ok (mat1 (/ (b * p * b + r) * (b * p * a))).
Proof.
  intros g a b r p Hg Hnz. unfold RiccatiSpec.gain.
  repeat (rewrite ?transpose_mat1, ?matmul_mat1, ?np_add_mat1; cbn [bind]).
  rewrite (Hg _ Hnz). cbn [bind].
  repeat (rewrite ?transpose_mat1, ?matmul_mat1; cbn [bind]).
  reflexivity.
Qed.

(** The iteration that stops only when the change is below the tolerance,
    on the same input: the first change, [1/2], is not below [1/2], so a
    second update is made, to [P = 8/5]. *)
Lemma solve_below_unit_value :
  forall f g : ndarray -> result ndarray,
    inverts_scalars f ->
    inverts_scalars g ->
    RiccatiSpec.solve f g (mat1 1) (mat1 1) (mat1 1) (mat1 1)
      (RiccatiSpec.below (1 / 2)) 150 =
    Ok (mat1 (8 / 13)).
Proof.
  intros f g Hf Hg. unfold RiccatiSpec.solve.
  change (Z.to_nat 150) with (S (S 148)). cbn [RiccatiSpec.iterate].
  rewrite (update_mat1_inverse f 1 1 1 1 1 Hf) by lra.
  replace (1 * 1 * 1 - 1 * 1 * 1 * / (1 + 1 * 1 * 1) * (1 * 1 * 1) + 1)
    with (3 / 2) by field.
  cbn [bind]. rewrite change_mat1, Rabs_half. cbn [bind].
  unfold RiccatiSpec.below at 1.
  destruct (Rlt_dec (1 / 2) (1 / 2)) as [H | _]; [exfalso; lra|].
  rewrite (update_mat1_inverse f 1 1 1 1 (3 / 2) Hf) by lra.
  replace (1 * (3 / 2) * 1 -
           1 * (3 / 2) * 1 * / (1 + 1 * (3 / 2) * 1) * (1 * (3 / 2) * 1) + 1)
    with (8 / 5) by field.
  cbn [bind]. rewrite change_mat1.
  replace (Rabs (8 / 5 - 3 / 2)) with (1 / 10)
    by (unfold Rabs; destruct (Rcase_abs (8 / 5 - 3 / 2)); lra).
  cbn [bind]. unfold RiccatiSpec.below.
  destruct (Rlt_dec (1 / 10) (1 / 2)) as [_ | H]; [|exfalso; lra].
  cbn [bind].
  rewrite (gain_mat1_inverse g 1 1 1 (8 / 5) Hg) by lra.
  scalar_eq. field.
Qed.

Lemma mat1_injective : forall a b : R, Ok (mat1 a) = Ok (mat1 b) -> a = b.
Proof. intros a b H. injection H as H. exact H. Qed.

(** C1 as stated fails at the boundary: with [A = B = Q = R = [[1]]],
    [tolerance = 1/2] and 150 iterations allowed, the code stops after the
    first update (change [1/2], not greater than the tolerance) and returns
    [[3/5]]; iterating until the change is below the tolerance gives
    [[8/13]], whichever of the inverse and the pseudo-inverse is used in the
    update and in the gain. *)
Lemma solve_stops_at_tolerance :
  LatController.SolveLQRProblem (mat1 1) (mat1 1) (mat1 1) (mat1 1) (1 / 2) 150 <>
  RiccatiSpec.solve np_linalg_inv np_linalg_inv
    (mat1 1) (mat1 1) (mat1 1) (mat1 1) (RiccatiSpec.below (1 / 2)) 150 /\
  LatController.SolveLQRProblem (mat1 1) (mat1 1) (mat1 1) (mat1 1) (1 / 2) 150 <>
  RiccatiSpec.solve RiccatiSpec.pseudo_inverse np_linalg_inv
    (mat1 1) (mat1 1) (mat1 1) (mat1 1) (RiccatiSpec.below (1 / 2)) 150 /\
  LatController.SolveLQRProblem (mat1 1) (mat1 1) (mat1 1) (mat1 1) (1 / 2) 150 <>
  RiccatiSpec.solve RiccatiSpec.pseudo_inverse RiccatiSpec.pseudo_inverse
    (mat1 1) (mat1 1) (mat1 1) (mat1 1) (RiccatiSpec.below (1 / 2)) 150.
Proof.
  rewrite solve_unit_value.
  rewrite !solve_below_unit_value
    by first [exact np_linalg_inv_inverts_scalars
             | exact pseudo_inverse_inverts_scalars].
  repeat split; intros H; apply mat1_injective in H; lra.
Qed.

Lemma solve_is_riccati_iteration_witness :
  LatController.SolveLQRProblem (mat1 1) (mat1 1) (mat1 1) (mat1 1) (1 / 2) 150 =
  RiccatiSpec.solve RiccatiSpec.pseudo_inverse np_linalg_inv
    (mat1 1) (mat1 1) (mat1 1) (mat1 1) (RiccatiSpec.at_most (1 / 2)) 150 /\
  LatController.SolveLQRProblem (mkarray 1 2 [[1; 0]]) (mat1 1) (mat1 1) (mat1 1)
    (1 / 2) 150 =
  Raise AssertionError.
Proof.
  split.
  - apply (solve_is_riccati_iteration
             (mat1 1) (mat1 1) (mat1 1) (mat1 1) (1 / 2) 150).
    reflexivity.
  - apply (solve_is_riccati_iteration
             (mkarray 1 2 [[1; 0]]) (mat1 1) (mat1 1) (mat1 1) (1 / 2) 150).
    reflexivity.
Defined.

Lemma gain_mat1_pinv :
  forall a b r p : R,
    RiccatiSpec.gain RiccatiSpec.pseudo_inverse
      (mat1 a) (mat1 b) (mat1 r) (mat1 p) =
    Ok (mat1 (pinv1 (b * p * b + r) * (b * p * a))).
Proof.
  intros a b r p. unfold RiccatiSpec.gain, RiccatiSpec.pseudo_inverse.
  repeat (rewrite ?transpose_mat1, ?matmul_mat1, ?np_add_mat1,
           ?np_linalg_pinv_mat1; cbn [bind]).
  reflexivity.
Qed.

(** C2: the gain is computed with [np.linalg.inv], not with the
    pseudo-inverse.  With [A = B = [[1]]] and [Q = R = [[0]]] the dimensions
    pass the entry assertion, the iteration (which does use the
    pseudo-inverse) converges after one update to [P = [[0]]], and the final
    inversion of [B^T P B + R = [[0]]] raises [LinAlgError]; with the
    pseudo-inverse there the gain would be [[0]]. *)
Theorem solve_raises_on_singular_gain :
  LatController.compatible_dimensions (mat1 1) (mat1 1) (mat1 0) (mat1 0) = true /\
  RiccatiSpec.iterate RiccatiSpec.pseudo_inverse
    (mat1 1) (mat1 1) (mat1 0) (mat1 0) (RiccatiSpec.at_most 0.01) 150 (mat1 0) =
  Ok (mat1 0) /\
  LatController.SolveLQRProblem (mat1 1) (mat1 1) (mat1 0) (mat1 0) 0.01 150 =
  Raise LinAlgError /\
  RiccatiSpec.solve RiccatiSpec.pseudo_inverse RiccatiSpec.pseudo_inverse
    (mat1 1) (mat1 1) (mat1 0) (mat1 0) (RiccatiSpec.at_most 0.01) 150 =
  Ok (mat1 0).
Proof.
  assert (Hit : RiccatiSpec.iterate RiccatiSpec.pseudo_inverse
                  (mat1 1) (mat1 1) (mat1 0) (mat1 0)
                  (RiccatiSpec.at_most 0.01) 150 (mat1 0) = Ok (mat1 0)).
  { change 150%nat with (S 149). cbn [RiccatiSpec.iterate].
    rewrite update_mat1.
    replace (1 * 0 * 1 - 1 * 0 * 1 * pinv1 (0 + 1 * 0 * 1) * (1 * 0 * 1) + 0)
      with 0 by ring.
    cbn [bind]. rewrite change_mat1.
    replace (Rabs (0 - 0)) with 0
      by (unfold Rabs; destruct (Rcase_abs (0 - 0)); lra).
    cbn [bind]. unfold RiccatiSpec.at_most.
    destruct (Rle_dec 0 0.01) as [_ | H]; [reflexivity | exfalso; lra]. }
  split; [reflexivity|]. split; [exact Hit|]. split.
  - rewrite SolveLQRProblem_via_iterate by reflexivity.
    change (Z.to_nat 150) with 150%nat. rewrite Hit. cbn [bind].
    apply gain_mat1_singular. lra.
  - unfold RiccatiSpec.solve.
    change (Z.to_nat 150) with 150%nat. rewrite Hit. cbn [bind].
    rewrite gain_mat1_pinv. scalar_eq. ring.
Qed.

(** *** The iteration never raises *)

Lemma matmul_well_shaped :
  forall (X Y : ndarray) (n k m : nat),
    shape0 X = n -> length (rows X) = n -> shape1 X = k ->
    shape0 Y = k -> shape1 Y = m ->
    exists Z, matmul X Y = Ok Z /\ well_shaped n m Z.
Proof.
  intros X Y n k m H0 Hl H1 H2 H3. unfold matmul.
  rewrite H1, H2, Nat.eqb_refl. eexists. split; [reflexivity|].
  unfold well_shaped. cbn [shape0 shape1 rows].
  repeat split; try assumption.
  - rewrite length_map. exact Hl.
  - apply Forall_forall. intros r Hr. apply in_map_iff in Hr.
    destruct Hr as (r0 & <- & _). rewrite length_map, columns_length. exact H3.
Qed.

Lemma map2_rows_well_shaped :
  forall (f : R -> R -> R) (m : nat) (rs1 rs2 : list (list R)),
    Forall (fun r => length r = m) rs1 ->
    Forall (fun r => length r = m) rs2 ->
    Forall (fun r => length r = m) (map2 (map2 f) rs1 rs2).
Proof.
  intros f m rs1 rs2 H1. revert rs2.
  induction H1 as [|r1 rs1 Hr1 _ IH]; intros rs2 H2.
  - constructor.
  - destruct H2 as [|r2 rs2 Hr2 H2]; [constructor|].
    unfold map2 at 1. simpl. constructor.
    + rewrite map2_length, Hr1, Hr2. apply Nat.min_id.
    + apply IH. exact H2.
Qed.

Lemma elementwise_well_shaped :
  forall (f : R -> R -> R) (X Y : ndarray) (n m : nat),
    well_shaped n m X -> well_shaped n m Y ->
    exists Z, elementwise f X Y = Ok Z /\ well_shaped n m Z.
Proof.
  intros f X Y n m (X0 & X1 & Xl & Xr) (Y0 & Y1 & Yl & Yr).
  unfold elementwise, same_shape.
  rewrite X0, X1, Y0, Y1, !Nat.eqb_refl. cbn [andb].
  eexists. split; [reflexivity|].
  unfold well_shaped. cbn [shape0 shape1 rows].
  repeat split.
  - rewrite map2_length, Xl, Yl. apply Nat.min_id.
  - apply map2_rows_well_shaped; assumption.
Qed.

Lemma np_max_abs_returns :
  forall (X : ndarray) (n m : nat),
    well_shaped n m X -> (0 < n)%nat -> (0 < m)%nat ->
    exists d, np_max (np_abs X) = Ok d.
Proof.
  intros [s0 s1 rs] n m (X0 & X1 & Xl & Xr) Hn Hm.
  cbn [shape0 shape1 rows] in *. unfold np_max, np_abs. cbn [rows].
  destruct rs as [|r rs]; [simpl in Xl; lia|].
  inversion Xr as [|? ? Hr _]; subst.
  destruct r as [|a r]; [simpl in Hm; lia|].
  simpl. eauto.
Qed.

Ltac shape_side :=
  cbn [transpose np_linalg_pinv shape0 shape1 rows];
  rewrite ?columns_length; first [assumption | congruence].

Ltac matmul_step X Y n k m Z HZ :=
  let H := fresh "H" in
  assert (H : exists Z0, matmul X Y = Ok Z0 /\ well_shaped n m Z0)
    by (apply (matmul_well_shaped X Y n k m); shape_side);
  destruct H as (Z & -> & HZ); cbn [bind].

Lemma update_returns :
  forall (A B Q R0 P : ndarray),
    LatController.compatible_dimensions A B Q R0 = true ->
    well_shaped (shape0 A) (shape0 A) Q ->
    well_shaped (shape0 A) (shape0 A) P ->
    exists P_next,
      RiccatiSpec.update RiccatiSpec.pseudo_inverse A B Q R0 P = Ok P_next /\
      well_shaped (shape0 A) (shape0 A) P_next.
Proof.
  intros A B Q R0 P Hdim HQ HP.
  unfold LatController.compatible_dimensions in Hdim.
  repeat (apply andb_prop in Hdim; destruct Hdim as [Hdim ?]).
  repeat match goal with
         | H : Nat.eqb _ _ = true |- _ => apply Nat.eqb_eq in H
         end.
  remember (shape0 A) as n eqn:En. remember (shape1 B) as m eqn:Em.
  assert (Hn : shape1 A = n) by congruence.
  assert (Hm : shape0 R0 = m /\ shape1 R0 = m) by (split; congruence).
  destruct Hm as [Hm0 Hm1].
  destruct HP as (P0 & P1 & Pl & Pr).
  unfold RiccatiSpec.update, RiccatiSpec.pseudo_inverse.
  matmul_step (transpose A) P n n n ATP HATP.
  destruct HATP as (a0 & a1 & al & _).
  matmul_step ATP A n n n ATPA HATPA.
  matmul_step ATP B n n m ATPB HATPB.
  destruct HATPB as (b0 & b1 & bl & _).
  matmul_step (transpose B) P m n n BTP HBTP.
  destruct HBTP as (c0 & c1 & cl & _).
  matmul_step BTP B m n m BTPB HBTPB.
  destruct HBTPB as (d0 & d1 & _).
  unfold np_add at 1, elementwise at 1, same_shape.
  rewrite Hm0, Hm1, d0, d1, !Nat.eqb_refl. cbn [andb bind].
  match goal with
  | |- context [np_linalg_pinv ?S] => set (Sp := np_linalg_pinv S)
  end.
  assert (s0 : shape0 Sp = m) by reflexivity.
  assert (s1 : shape1 Sp = m) by reflexivity.
  clearbody Sp.
  matmul_step ATPB Sp n m m L HL.
  destruct HL as (e0 & e1 & el & _).
  matmul_step BTP A m n n BTPA HBTPA.
  destruct HBTPA as (f0 & f1 & _).
  matmul_step L BTPA n m n LR HLR.
  destruct (elementwise_well_shaped Rminus ATPA LR n n HATPA HLR)
    as (D & HD & HDw).
  unfold np_sub. rewrite HD. cbn [bind].
  apply (elementwise_well_shaped Rplus D Q n n HDw HQ).
Qed.

Lemma iterate_returns :
  forall (A B Q R0 : ndarray) (stop : R -> bool),
    LatController.compatible_dimensions A B Q R0 = true ->
    (0 < shape0 A)%nat ->
    well_shaped (shape0 A) (shape0 A) Q ->
    forall (k : nat) (P : ndarray),
      well_shaped (shape0 A) (shape0 A) P ->
      exists P_last,
        RiccatiSpec.iterate RiccatiSpec.pseudo_inverse A B Q R0 stop k P =
        Ok P_last /\
        well_shaped (shape0 A) (shape0 A) P_last.
Proof.
  intros A B Q R0 stop Hdim Hpos HQ.
  induction k as [|k IH]; intros P HP.
  - exists P. split; [reflexivity | exact HP].
  - cbn [RiccatiSpec.iterate].
    destruct (update_returns A B Q R0 P Hdim HQ HP) as (P_next & -> & Hnext).
    cbn [bind]. unfold RiccatiSpec.change.
    destruct (elementwise_well_shaped Rminus P_next P _ _ Hnext HP)
      as (E & HE & HEw).
    unfold np_sub. rewrite HE. cbn [bind].
    destruct (np_max_abs_returns E _ _ HEw Hpos Hpos) as (d & ->).
    cbn [bind].
    destruct (stop d); [exists P_next; split; [reflexivity | exact Hnext]|].
    apply IH. exact Hnext.
Qed.

Lemma np_linalg_inv_cases :
  forall S : ndarray,
    np_linalg_inv S = Raise LinAlgError \/
    exists Z, np_linalg_inv S = Ok Z /\
              shape0 Z = shape0 S /\ shape1 Z = shape1 S.
Proof.
  intros S. unfold np_linalg_inv.
  destruct (negb (Nat.eqb (shape0 S) (shape1 S))); [left; reflexivity|].
  destruct (Req_dec_T (det (shape0 S) (rows S)) 0); [left; reflexivity|].
  right. eexists. split; [reflexivity|]. split; reflexivity.
Qed.

(** With at least one state and a well-shaped [Q], an input that passes the
    entry assertion makes the loop return, and the only exception
    [SolveLQRProblem] can raise is the [LinAlgError] of the final
    [np.linalg.inv]. *)
Lemma solve_fails_only_at_final_inverse :
  forall (A B Q R0 : ndarray) (tolerance : R) (max_num_iteration : Z),
    LatController.compatible_dimensions A B Q R0 = true ->
    (0 < shape0 A)%nat ->
    well_shaped (shape0 A) (shape0 A) Q ->
    returns (RiccatiSpec.iterate RiccatiSpec.pseudo_inverse A B Q R0
               (RiccatiSpec.at_most tolerance) (Z.to_nat max_num_iteration) Q) /\
    (returns (LatController.SolveLQRProblem A B Q R0 tolerance max_num_iteration) \/
     LatController.SolveLQRProblem A B Q R0 tolerance max_num_iteration =
     Raise LinAlgError).
Proof.
  intros A B Q R0 tolerance max_num_iteration Hdim Hpos HQ.
  rewrite (SolveLQRProblem_via_iterate A B Q R0 tolerance max_num_iteration Hdim).
  destruct (iterate_returns A B Q R0 (RiccatiSpec.at_most tolerance)
              Hdim Hpos HQ (Z.to_nat max_num_iteration) Q HQ)
    as (P & -> & HP).
  split; [exists P; reflexivity|]. cbn [bind].
  unfold LatController.compatible_dimensions in Hdim.
  repeat (apply andb_prop in Hdim; destruct Hdim as [Hdim ?]).
  repeat match goal with
         | H : Nat.eqb _ _ = true |- _ => apply Nat.eqb_eq in H
         end.
  remember (shape0 A) as n eqn:En. remember (shape1 B) as m eqn:Em.
  assert (Hn : shape1 A = n) by congruence.
  assert (Hm : shape0 R0 = m /\ shape1 R0 = m) by (split; congruence).
  destruct Hm as [Hm0 Hm1].
  destruct HP as (P0 & P1 & Pl & Pr).
  unfold RiccatiSpec.gain.
  matmul_step (transpose B) P m n n BTP HBTP.
  destruct HBTP as (c0 & c1 & cl & _).
  matmul_step BTP B m n m BTPB HBTPB.
  destruct HBTPB as (d0 & d1 & _).
  assert (HS : exists S, np_add BTPB R0 = Ok S /\
                         shape0 S = m /\ shape1 S = m).
  { unfold np_add, elementwise, same_shape.
    rewrite Hm0, Hm1, d0, d1, !Nat.eqb_refl. cbn [andb].
    eexists. split; [reflexivity|]. split; reflexivity. }
  destruct HS as (S & -> & S0 & S1). cbn [bind].
  match goal with
  | |- context [np_linalg_inv ?S] =>
      destruct (np_linalg_inv_cases S) as [-> | (Sinv & -> & s0 & s1)]
  end.
  - right. reflexivity.
  - left. cbn [bind].
    matmul_step BTP A m n n BTPA HBTPA.
    destruct HBTPA as (f0 & f1 & _).
    unfold matmul.
    replace (Nat.eqb (shape1 Sinv) (shape0 BTPA)) with true
      by (symmetry; apply Nat.eqb_eq; congruence).
    eexists. reflexivity.
Qed.

(** * Further properties of the code *)

Ltac split_abs :=
  unfold Rabs in *;
  repeat match goal with
         | |- context [Rcase_abs ?a] => destruct (Rcase_abs a)
         | H : context [Rcase_abs ?a] |- _ => destruct (Rcase_abs a)
         end.

(** ** [pi_2_pi] *)

(** X1: the result is the angle itself when it lies between [- PI] and
    [PI], and otherwise the angle moved by one full turn towards zero; so
    the cosine and the sine of the angle are kept. *)
Theorem pi_2_pi_shift :
  forall angle : R,
    ((PI < angle /\ pi_2_pi angle = angle - 2 * PI) \/
     (angle < - PI /\ pi_2_pi angle = angle + 2 * PI) \/
     (- PI <= angle <= PI /\ pi_2_pi angle = angle)) /\
    cos (pi_2_pi angle) = cos angle /\
    sin (pi_2_pi angle) = sin angle.
Proof.
  intros angle. unfold pi_2_pi.
  destruct (Rgt_dec angle PI) as [Hgt | Hgt].
  - split; [left; split; lra|].
    replace angle with ((angle - 2.0 * PI) + 2 * PI) at 2 4 by lra.
    rewrite cos_plus, sin_plus, cos_2PI, sin_2PI. split; ring.
  - destruct (Rlt_dec angle (- PI)) as [Hlt | Hlt].
    + split; [right; left; split; lra|].
      replace (angle + 2.0 * PI) with (angle + 2 * PI) by lra.
      rewrite cos_plus, sin_plus, cos_2PI, sin_2PI. split; ring.
    + split; [right; right; split; lra|]. split; reflexivity.
Qed.

(** ** [VehicleState] *)

(** X2: with non-negative limits, [RegulateInput] returns a steering angle
    and an acceleration within their limits, and returns unchanged an input
    that is already within its limit. *)
Theorem RegulateInput_clamps :
  forall (cfg : Config) (delta a : R),
    0 <= cfg.(max_steer_angle) ->
    0 <= cfg.(max_acceleration) ->
    Rabs (fst (RegulateInput cfg delta a)) <= cfg.(max_steer_angle) /\
    Rabs (snd (RegulateInput cfg delta a)) <= cfg.(max_acceleration) /\
    (Rabs delta <= cfg.(max_steer_angle) ->
     fst (RegulateInput cfg delta a) = delta) /\
    (Rabs a <= cfg.(max_acceleration) ->
     snd (RegulateInput cfg delta a) = a).
Proof.
  intros cfg delta a Hs Ha. unfold RegulateInput. cbn [fst snd].
  repeat split; try intros H; case_cmp; case_abs; lra.
Qed.

Lemma RegulateInput_clamps_witness :
  Rabs (fst (RegulateInput sample_config 0.5 (-2))) <= 0.7 /\
  Rabs (snd (RegulateInput sample_config 0.5 (-2))) <= 5.0 /\
  fst (RegulateInput sample_config 0.5 (-2)) = 0.5 /\
  snd (RegulateInput sample_config 0.5 (-2)) = -2.
Proof.
  destruct (RegulateInput_clamps sample_config 0.5 (-2))
    as (H1 & H2 & H3 & H4); [simpl; lra | simpl; lra |].
  repeat split; [exact H1 | exact H2 | apply H3 | apply H4];
    simpl; split_abs; lra.
Defined.

(** X3: with a non-negative speed limit, [RegulateOutput] leaves a speed
    within the limit unchanged, and applying it twice is applying it
    once. *)
Theorem RegulateOutput_idempotent :
  forall (cfg : Config) (v0 : R),
    0 <= cfg.(max_speed) ->
    (Rabs v0 <= cfg.(max_speed) / 3.6 -> RegulateOutput cfg v0 = v0) /\
    RegulateOutput cfg (RegulateOutput cfg v0) = RegulateOutput cfg v0.
Proof.
  intros cfg v0 Hs. unfold RegulateOutput.
  split; [intros H|]; case_cmp; case_abs; lra.
Qed.

Lemma RegulateOutput_idempotent_witness :
  RegulateOutput sample_config 5 = 5 /\
  RegulateOutput sample_config (RegulateOutput sample_config 5) =
  RegulateOutput sample_config 5.
Proof.
  destruct (RegulateOutput_idempotent sample_config 5) as [H1 H2];
    [simpl; lra|].
  split; [apply H1; simpl; unfold Rabs; case_abs; lra | exact H2].
Defined.

Lemma update_speed :
  forall (cfg : Config) (self : VehicleState)
         (delta a e_cg0 theta_e0 : R) (gear0 : Gear),
    cfg.(l_r) + cfg.(l_f) <> 0 ->
    (fst (UpdateVehicleState cfg self delta a e_cg0 theta_e0 gear0)).(v) =
    RegulateOutput cfg
      (if Gear_eqb gear0 GEAR_DRIVE
       then self.(v) + snd (RegulateInput cfg delta a) * cfg.(ts)
       else self.(v) + -1.0 * snd (RegulateInput cfg delta a) * cfg.(ts)).
Proof.
  intros cfg self delta a e_cg0 theta_e0 gear0 Hw.
  unfold UpdateVehicleState.
  destruct (RegulateInput cfg delta a) as [delta' a'].
  cbn [v x y yaw e_cg theta_e gear snd].
  rewrite (truediv_nonzero _ _ Hw). reflexivity.
Qed.

Lemma RegulateOutput_nonexpansive :
  forall (cfg : Config) (v0 u : R),
    0 <= cfg.(max_speed) ->
    Rabs v0 <= cfg.(max_speed) / 3.6 ->
    Rabs (RegulateOutput cfg u - v0) <= Rabs (u - v0).
Proof.
  intros cfg v0 u Hs Hv. unfold RegulateOutput.
  case_cmp; split_abs; lra.
Qed.

Lemma regulated_accel_step :
  forall (cfg : Config) (delta a : R),
    0 <= cfg.(max_acceleration) ->
    Rabs (snd (RegulateInput cfg delta a) * cfg.(ts)) <=
    cfg.(max_acceleration) * Rabs cfg.(ts).
Proof.
  intros cfg delta a Ha. rewrite Rabs_mult.
  apply Rmult_le_compat_r; [apply Rabs_pos|].
  unfold RegulateInput. cbn [snd]. case_cmp; case_abs; lra.
Qed.

(** X4: with non-negative limits and a non-zero wheelbase, one update
    changes a speed that is within the speed limit by at most
    [max_acceleration * |ts|], in either gear and whatever the commands. *)
Theorem update_speed_step_bounded :
  forall (cfg : Config) (self : VehicleState)
         (delta a e_cg0 theta_e0 : R) (gear0 : Gear),
    0 <= cfg.(max_acceleration) ->
    0 <= cfg.(max_speed) ->
    cfg.(l_r) + cfg.(l_f) <> 0 ->
    Rabs self.(v) <= cfg.(max_speed) / 3.6 ->
    Rabs ((fst (UpdateVehicleState cfg self delta a e_cg0 theta_e0 gear0)).(v)
          - self.(v))
    <= cfg.(max_acceleration) * Rabs cfg.(ts).
Proof.
  intros cfg self delta a e_cg0 theta_e0 gear0 Ha Hs Hw Hv.
  rewrite (update_speed cfg self delta a e_cg0 theta_e0 gear0 Hw).
  eapply Rle_trans; [apply RegulateOutput_nonexpansive; assumption|].
  pose proof (regulated_accel_step cfg delta a Ha) as Hstep.
  set (w := snd (RegulateInput cfg delta a) * ts cfg) in *.
  destruct (Gear_eqb gear0 GEAR_DRIVE).
  - replace (v self + w - v self) with w by ring. exact Hstep.
  - replace (v self + -1.0 * snd (RegulateInput cfg delta a) * ts cfg - v self)
      with (- w) by (unfold w; lra).
    rewrite Rabs_Ropp. exact Hstep.
Qed.

Lemma update_speed_step_bounded_witness :
  Rabs ((fst (UpdateVehicleState sample_config drive_state 0 9 0 0 GEAR_DRIVE)).(v)
        - 5)
  <= 5.0 * Rabs 0.1.
Proof.
  apply (update_speed_step_bounded sample_config drive_state 0 9 0 0 GEAR_DRIVE);
    simpl; try lra.
  split_abs; lra.
Defined.

(** X5: the gear fixes the sign convention of the acceleration command.
    With a non-negative tick and limits, a non-negative command never lowers
    a speed within the limit in DRIVE gear and never raises it in REVERSE
    gear. *)
Theorem update_gear_sign :
  forall (cfg : Config) (self : VehicleState)
         (delta a e_cg0 theta_e0 : R),
    0 <= cfg.(ts) ->
    0 <= cfg.(max_acceleration) ->
    0 <= cfg.(max_speed) ->
    cfg.(l_r) + cfg.(l_f) <> 0 ->
    Rabs self.(v) <= cfg.(max_speed) / 3.6 ->
    0 <= a ->
    self.(v) <=
    (fst (UpdateVehicleState cfg self delta a e_cg0 theta_e0 GEAR_DRIVE)).(v) /\
    (fst (UpdateVehicleState cfg self delta a e_cg0 theta_e0 GEAR_REVERSE)).(v)
    <= self.(v).
Proof.
  intros cfg self delta a e_cg0 theta_e0 Ht Ha Hs Hw Hv Hpos.
  rewrite !update_speed by exact Hw. cbn [Gear_eqb].
  assert (Hreg : 0 <= snd (RegulateInput cfg delta a)).
  { unfold RegulateInput. cbn [snd]. case_cmp; lra. }
  pose proof (Rmult_le_pos _ _ Hreg Ht) as Hw0.
  set (w := snd (RegulateInput cfg delta a) * ts cfg) in *.
  replace (-1.0 * snd (RegulateInput cfg delta a) * ts cfg) with (- w)
    by (unfold w; lra).
  unfold RegulateOutput. split; case_cmp; case_abs; lra.
Qed.

Lemma update_gear_sign_witness :
  5 <= (fst (UpdateVehicleState sample_config drive_state 0 2 0 0 GEAR_DRIVE)).(v) /\
  (fst (UpdateVehicleState sample_config drive_state 0 2 0 0 GEAR_REVERSE)).(v) <= 5.
Proof.
  apply (update_gear_sign sample_config drive_state 0 2 0 0); simpl; try lra.
  split_abs; lra.
Defined.

(** X6: with a zero wheelbase the call raises [ZeroDivisionError] in the
    heading update: the gear and the position are already written, while
    the heading, the speed and the two stored errors keep their old
    values. *)
Theorem update_partial_on_zero_wheelbase :
  forall (cfg : Config) (self : VehicleState)
         (delta a e_cg0 theta_e0 : R) (gear0 : Gear),
    cfg.(l_r) + cfg.(l_f) = 0 ->
    UpdateVehicleState cfg self delta a e_cg0 theta_e0 gear0 =
    ({| x := self.(x) + self.(v) * cos self.(yaw) * cfg.(ts);
        y := self.(y) + self.(v) * sin self.(yaw) * cfg.(ts);
        yaw := self.(yaw); v := self.(v);
        e_cg := self.(e_cg); theta_e := self.(theta_e);
        gear := gear0 |},
     Raise ZeroDivisionError).
Proof.
  intros cfg self delta a e_cg0 theta_e0 gear0 Hw.
  unfold UpdateVehicleState.
  destruct (RegulateInput cfg delta a) as [delta' a'].
  cbn [v x y yaw e_cg theta_e gear]. unfold truediv.
  destruct (Req_dec_T (l_r cfg + l_f cfg) 0) as [_ | H]; [|contradiction].
  reflexivity.
Qed.

Lemma update_partial_on_zero_wheelbase_witness :
  UpdateVehicleState zero_wheelbase_config drive_state 0.1 1 0.2 0.3
    GEAR_REVERSE =
  ({| x := 0 + 5 * cos 0 * 0.1; y := 0 + 5 * sin 0 * 0.1;
      yaw := 0; v := 5; e_cg := 0; theta_e := 0; gear := GEAR_REVERSE |},
   Raise ZeroDivisionError).
Proof.
  apply (update_partial_on_zero_wheelbase zero_wheelbase_config drive_state
           0.1 1 0.2 0.3 GEAR_REVERSE).
  simpl. lra.
Defined.



(** ** The longitudinal command applied to the state *)

Lemma regulated_negative_step :
  forall (cfg : Config) (delta a : R),
    0 < cfg.(ts) -> 0 < cfg.(max_acceleration) -> a < 0 ->
    snd (RegulateInput cfg delta a) * cfg.(ts) < 0.
Proof.
  intros cfg delta a Ht Ha Hneg.
  assert (Hreg : snd (RegulateInput cfg delta a) < 0).
  { unfold RegulateInput. cbn [snd]. case_cmp; lra. }
  rewrite <- (Rmult_0_l (ts cfg)). apply Rmult_lt_compat_r; assumption.
Qed.

(** X8: the braking override applied for one tick.  Within the stopping
    distance, with a positive tick and acceleration limit and the speed
    within the speed limit: a speed above 2.0 is strictly lowered in DRIVE
    gear, and a speed below -2 is strictly raised in REVERSE gear; but
    in DRIVE gear a speed below -2 is not raised. *)
Theorem braking_override_tick :
  forall (cfg : Config) (self : VehicleState)
         (target_speed dist delta e_cg0 theta_e0 : R),
    0 < cfg.(ts) ->
    0 < cfg.(max_acceleration) ->
    0 <= cfg.(max_speed) ->
    cfg.(l_r) + cfg.(l_f) <> 0 ->
    Rabs self.(v) <= cfg.(max_speed) / 3.6 ->
    dist < 11.0 ->
    let a := LonController.ComputeControlCommand target_speed self dist in
    (self.(v) > 2.0 ->
     (fst (UpdateVehicleState cfg self delta a e_cg0 theta_e0 GEAR_DRIVE)).(v)
     < self.(v)) /\
    (self.(v) < -2 ->
     self.(v) <
     (fst (UpdateVehicleState cfg self delta a e_cg0 theta_e0 GEAR_REVERSE)).(v)) /\
    (self.(v) < -2 ->
     (fst (UpdateVehicleState cfg self delta a e_cg0 theta_e0 GEAR_DRIVE)).(v)
     <= self.(v)).
Proof.
  intros cfg self target_speed dist delta e_cg0 theta_e0
         Ht Ha Hs Hw Hv Hd a.
  assert (Hneg : (self.(v) > 2.0 \/ self.(v) < -2) -> a < 0).
  { intros H. subst a. unfold LonController.ComputeControlCommand.
    case_cmp; lra. }
  rewrite !update_speed by exact Hw. cbn [Gear_eqb].
  repeat split; intros Hcase;
    pose proof (regulated_negative_step cfg delta a Ht Ha
                  (Hneg ltac:(lra))) as Hstep;
    set (w := snd (RegulateInput cfg delta a) * ts cfg) in *;
    try replace (-1.0 * snd (RegulateInput cfg delta a) * ts cfg) with (- w)
      by (unfold w; lra);
    unfold RegulateOutput; case_cmp; split_abs; lra.
Qed.

Lemma braking_override_tick_witness :
  (fst (UpdateVehicleState sample_config drive_state 0
          (LonController.ComputeControlCommand 7 drive_state 5)
          0 0 GEAR_DRIVE)).(v) < 5.
Proof.
  apply (braking_override_tick sample_config drive_state 7 5 0 0 0);
    simpl; try lra.
  split_abs; lra.
Defined.

(** ** [TrajectoryAnalyzer.ToTrajectoryFrame] *)

Lemma getitem_Ok :
  forall (l : list R) (i : nat) (a : R),
    getitem l i = Ok a -> (i < length l)%nat /\ nth i l 0 = a.
Proof.
  intros l i a H. unfold getitem in H.
  destruct (nth_error l i) as [b|] eqn:E; [|discriminate].
  injection H as ->. split.
  - apply nth_error_Some. congruence.
  - apply nth_error_nth. exact E.
Qed.

Lemma hypot_nonneg : forall a b : R, 0 <= hypot a b.
Proof. intros a b. unfold hypot. apply sqrt_pos. Qed.

Lemma hypot_0_0 : hypot 0 0 = 0.
Proof.
  unfold hypot. replace (0 * 0 + 0 * 0) with 0 by ring. apply sqrt_0.
Qed.

Lemma nearest_point_Ok :
  forall (self : TrajectoryAnalyzer) (vs : VehicleState)
         (off : nat) (dxi dyi : R),
    nearest_point self vs = Ok (off, dxi, dyi) ->
    (exists h, np_hypot (dx self vs) (dy self vs) = Ok h /\
               first_min_index h off) /\
    (self.(ind_old) + off < Nat.min self.(ind_end) (length self.(x_)))%nat /\
    (self.(ind_old) + off < Nat.min self.(ind_end) (length self.(y_)))%nat /\
    dxi = vs.(x) - nth (self.(ind_old) + off) self.(x_) 0 /\
    dyi = vs.(y) - nth (self.(ind_old) + off) self.(y_) 0.
Proof.
  intros self vs off dxi dyi H. unfold nearest_point in H.
  destruct (np_hypot (dx self vs) (dy self vs)) as [h|e] eqn:Hh; [|discriminate].
  cbn [bind] in H.
  destruct (np_argmin h) as [i|e] eqn:Hi; [|discriminate].
  cbn [bind] in H.
  destruct (getitem (dx self vs) i) as [a|e] eqn:Ha; [|discriminate].
  destruct (getitem (dy self vs) i) as [b|e] eqn:Hb; [|discriminate].
  cbn [bind] in H. injection H as -> -> ->.
  apply getitem_Ok in Ha, Hb. destruct Ha as [Hla Ha], Hb as [Hlb Hb].
  assert (Hsx : (off < length (slice (x_ self) (ind_old self) (ind_end self)))%nat)
    by (unfold dx in Hla; rewrite length_map in Hla; exact Hla).
  assert (Hsy : (off < length (slice (y_ self) (ind_old self) (ind_end self)))%nat)
    by (unfold dy in Hlb; rewrite length_map in Hlb; exact Hlb).
  split; [exists h; split; [reflexivity | apply np_argmin_first_min; exact Hi]|].
  pose proof Hsx as Hsx'. pose proof Hsy as Hsy'.
  rewrite slice_length in Hsx', Hsy'.
  repeat split; try lia.
  - rewrite <- Ha. unfold dx. apply shifted_slice_nth. exact Hsx.
  - rewrite <- Hb. unfold dy. apply shifted_slice_nth. exact Hsy.
Qed.

Lemma ToTrajectoryFrame_Ok :
  forall (self : TrajectoryAnalyzer) (vs : VehicleState) (th e yr kr : R),
    snd (ToTrajectoryFrame self vs) = Ok (th, e, yr, kr) ->
    exists off dxi dyi,
      nearest_point self vs = Ok (off, dxi, dyi) /\
      ind_old (fst (ToTrajectoryFrame self vs)) = (self.(ind_old) + off)%nat /\
      e = (if Rgt_dec (cos (vs.(yaw) + PI / 2.0) * dxi +
                       sin (vs.(yaw) + PI / 2.0) * dyi) 0.0
           then 1.0 * hypot dxi dyi else -1.0 * hypot dxi dyi) /\
      getitem self.(yaw_) (self.(ind_old) + off) = Ok yr /\
      getitem self.(k_) (self.(ind_old) + off) = Ok kr /\
      th = pi_2_pi (vs.(yaw) - yr).
Proof.
  intros self vs th e yr kr H. unfold ToTrajectoryFrame in *.
  destruct (nearest_point self vs) as [[[off dxi] dyi] | ex];
    [|discriminate].
  cbn [fst snd x_ y_ yaw_ k_ ind_old ind_end] in *.
  destruct (getitem (yaw_ self) (ind_old self + off)) as [a|ex] eqn:Ea;
    [|discriminate].
  cbn [bind] in H.
  destruct (getitem (k_ self) (ind_old self + off)) as [b|ex] eqn:Eb;
    [|discriminate].
  cbn [bind] in H. injection H as <- <- <- <-.
  exists off, dxi, dyi. repeat split; first [reflexivity | assumption].
Qed.

(** X9: when [x_] and [y_] have one length and the call returns, the
    magnitude of the lateral error is the distance from the vehicle to the
    path point at the new cursor, and no point of the scanned suffix is
    nearer; so the lateral error is zero when the vehicle stands on a point
    of the suffix. *)
Theorem lateral_error_is_least_distance :
  forall (self : TrajectoryAnalyzer) (vs : VehicleState) (th e yr kr : R),
    length self.(x_) = length self.(y_) ->
    snd (ToTrajectoryFrame self vs) = Ok (th, e, yr, kr) ->
    let i := ind_old (fst (ToTrajectoryFrame self vs)) in
    let last := Nat.min self.(ind_end) (length self.(x_)) in
    (self.(ind_old) <= i < last)%nat /\
    Rabs e = hypot (vs.(x) - nth i self.(x_) 0) (vs.(y) - nth i self.(y_) 0) /\
    (forall j : nat,
        (self.(ind_old) <= j < last)%nat ->
        Rabs e <= hypot (vs.(x) - nth j self.(x_) 0)
                        (vs.(y) - nth j self.(y_) 0)) /\
    (forall j : nat,
        (self.(ind_old) <= j < last)%nat ->
        nth j self.(x_) 0 = vs.(x) -> nth j self.(y_) 0 = vs.(y) ->
        e = 0).
Proof.
  intros self vs th e yr kr Hxy H i last.
  destruct (ToTrajectoryFrame_Ok self vs th e yr kr H)
    as (off & dxi & dyi & Hnp & Hi & He & _).
  destruct (nearest_point_Ok self vs off dxi dyi Hnp)
    as ((h & Hh & (Hoff & Hmin & _)) & Hbx & _ & Hdx & Hdy).
  subst i last. rewrite Hi.
  assert (Habs : Rabs e = hypot dxi dyi).
  { pose proof (hypot_nonneg dxi dyi). rewrite He.
    destruct (Rgt_dec _ _); split_abs; lra. }
  assert (Hlen : length h = (Nat.min (ind_end self) (length (x_ self))
                             - ind_old self)%nat).
  { unfold np_hypot in Hh.
    assert (Hl : length (dx self vs) = length (dy self vs))
      by (unfold dx, dy; rewrite !length_map, !slice_length, Hxy; reflexivity).
    rewrite Hl, Nat.eqb_refl in Hh. injection Hh as <-.
    rewrite map2_length, <- Hl, Nat.min_id. unfold dx.
    rewrite length_map, slice_length. reflexivity. }
  assert (Hat : forall j, (j < length h)%nat ->
                  nth j h 0 =
                  hypot (x vs - nth (ind_old self + j) (x_ self) 0)
                        (y vs - nth (ind_old self + j) (y_ self) 0))
    by (apply scan_distance_nth; assumption).
  assert (Hleast : forall j : nat,
             (ind_old self <= j < Nat.min (ind_end self) (length (x_ self)))%nat ->
             Rabs e <= hypot (x vs - nth j (x_ self) 0)
                             (y vs - nth j (y_ self) 0)).
  { intros j Hj. rewrite Habs.
    replace (hypot dxi dyi) with (nth off h 0)
      by (rewrite (Hat off Hoff), Hdx, Hdy; reflexivity).
    specialize (Hmin (j - ind_old self)%nat ltac:(lia)).
    rewrite (Hat (j - ind_old self)%nat) in Hmin by lia.
    replace (ind_old self + (j - ind_old self))%nat with j in Hmin by lia.
    exact Hmin. }
  split; [lia|]. split; [rewrite Habs, Hdx, Hdy; reflexivity|].
  split; [exact Hleast|].
  intros j Hj Hx Hy. specialize (Hleast j Hj).
  rewrite Hx, Hy in Hleast.
  replace (x vs - x vs) with 0 in Hleast by ring.
  replace (y vs - y vs) with 0 in Hleast by ring.
  rewrite hypot_0_0 in Hleast. split_abs; lra.
Qed.

Lemma origin_frame :
  forall vs : VehicleState,
    vs.(x) = 0 -> vs.(y) = 0 -> vs.(yaw) = 0 ->
    ToTrajectoryFrame sample_analyzer vs =
    ({| x_ := [0; 0]; y_ := [0; 0]; yaw_ := [0; 0]; k_ := [0; 0];
        ind_old := 0 + 0; ind_end := 2 |},
     Ok (pi_2_pi (0 - 0), -1.0 * hypot (0 - 0) (0 - 0), 0, 0)).
Proof.
  intros [x0 y0 yaw0 v0 e0 t0 g0] Hx Hy Hyaw. cbn [x y yaw] in *. subst.
  unfold ToTrajectoryFrame, nearest_point, dx, dy, np_hypot, np_argmin. simpl.
  destruct (Rlt_dec (hypot (0 - 0) (0 - 0)) (hypot (0 - 0) (0 - 0))) as [H | _];
    [exfalso; lra|].
  simpl.
  destruct (Rgt_dec _ _) as [H | _]; [exfalso; lra | reflexivity].
Qed.

Lemma lateral_error_is_least_distance_witness :
  -1.0 * hypot (0 - 0) (0 - 0) = 0.
Proof.
  destruct (lateral_error_is_least_distance sample_analyzer sample_state
              (pi_2_pi (0 - 0)) (-1.0 * hypot (0 - 0) (0 - 0)) 0 0
              eq_refl
              (f_equal snd (origin_frame sample_state eq_refl eq_refl eq_refl)))
    as (_ & _ & _ & Hzero).
  apply (Hzero 1%nat).
  - simpl. lia.
  - reflexivity.
  - reflexivity.
Defined.




Lemma ToTrajectoryFrame_exhausted :
  forall (self : TrajectoryAnalyzer) (vs : VehicleState),
    (Nat.min self.(ind_end) (length self.(x_)) <= self.(ind_old))%nat ->
    ToTrajectoryFrame self vs = (self, Raise ValueError).
Proof.
  intros self vs H.
  assert (Hdx : dx self vs = []).
  { apply length_zero_iff_nil. unfold dx.
    rewrite length_map, slice_length. lia. }
  unfold ToTrajectoryFrame, nearest_point, np_hypot. rewrite Hdx.
  destruct (dy self vs) as [|b [|b' l]]; reflexivity.
Qed.

(** X11: when the cursor is at or past the end of the scanned range (in
    particular for an analyzer built from an empty [x] array) the call
    raises [ValueError] and leaves the analyzer as it was. *)
Theorem exhausted_path_raises :
  forall (self : TrajectoryAnalyzer) (vs : VehicleState),
    (Nat.min self.(ind_end) (length self.(x_)) <= self.(ind_old))%nat ->
    ToTrajectoryFrame self vs = (self, Raise ValueError).
Proof.
  intros self vs H. apply ToTrajectoryFrame_exhausted. exact H.
Qed.

Lemma exhausted_path_raises_witness :
  ToTrajectoryFrame empty_analyzer sample_state = (empty_analyzer, Raise ValueError).
Proof.
  apply (exhausted_path_raises empty_analyzer sample_state). simpl. lia.
Defined.

(** X12: the cursor is written before [yaw_] and [k_] are read.  When the
    scan succeeds but [yaw_] or [k_] does not reach the new cursor, the call
    raises [IndexError] and the cursor stays advanced. *)
Theorem short_reference_arrays_raise :
  forall (self : TrajectoryAnalyzer) (vs : VehicleState)
         (off : nat) (dxi dyi : R),
    nearest_point self vs = Ok (off, dxi, dyi) ->
    (length self.(yaw_) <= self.(ind_old) + off)%nat \/
    (length self.(k_) <= self.(ind_old) + off)%nat ->
    snd (ToTrajectoryFrame self vs) = Raise IndexError /\
    ind_old (fst (ToTrajectoryFrame self vs)) = (self.(ind_old) + off)%nat.
Proof.
  intros self vs off dxi dyi Hnp Hshort.
  unfold ToTrajectoryFrame. rewrite Hnp.
  cbn [fst snd x_ y_ yaw_ k_ ind_old ind_end].
  split; [|reflexivity].
  unfold getitem.
  destruct (nth_error (yaw_ self) (ind_old self + off)) as [a|] eqn:Ea;
    [|reflexivity].
  cbn [bind].
  destruct (nth_error (k_ self) (ind_old self + off)) as [b|] eqn:Eb;
    [|reflexivity].
  exfalso.
  assert (Hy : (ind_old self + off < length (yaw_ self))%nat)
    by (apply nth_error_Some; congruence).
  assert (Hk : (ind_old self + off < length (k_ self))%nat)
    by (apply nth_error_Some; congruence).
  lia.
Qed.

Lemma short_reference_arrays_raise_witness :
  snd (ToTrajectoryFrame short_analyzer sample_state) = Raise IndexError /\
  ind_old (fst (ToTrajectoryFrame short_analyzer sample_state)) = (0 + 0)%nat.
Proof.
  apply (short_reference_arrays_raise short_analyzer sample_state
           0%nat (0 - 0) (0 - 0)).
  - reflexivity.
  - left. simpl. lia.
Defined.

(** ** [LatController.ComputeFeedForward] *)

(** X13: with non-zero stiffnesses and wheelbase, and in DRIVE gear a gain
    matrix that has the entry [K[0][2]], the feedforward term is
    proportional to the reference curvature, with a factor that depends on
    the configuration, the speed, the gear and [K[0][2]] only; it is zero on
    a straight reference. *)
Theorem feedforward_linear_in_curvature :
  forall (cfg : Config) (vs : VehicleState) (K : ndarray),
    cfg.(c_f) <> 0 ->
    cfg.(c_r) <> 0 ->
    cfg.(l_f) + cfg.(l_r) <> 0 ->
    vs.(gear) = GEAR_REVERSE \/ returns (getitem2 K 0 2) ->
    exists g : R,
      forall k_ref : R,
        exists f : R,
          LatController.ComputeFeedForward cfg vs k_ref K = Ok f /\
          f = g * k_ref.
Proof.
  intros cfg vs K Hf Hr Hw HK.
  unfold LatController.ComputeFeedForward.
  rewrite (truediv_nonzero _ _ Hf). cbn [bind].
  rewrite (truediv_nonzero _ _ Hw). cbn [bind].
  rewrite (truediv_nonzero _ _ Hr). cbn [bind].
  rewrite (truediv_nonzero _ _ Hw). cbn [bind].
  destruct (Gear_eqb (gear vs) GEAR_REVERSE) eqn:Hg.
  - exists (l_f cfg + l_r cfg). intros k_ref. eexists. split; reflexivity.
  - destruct HK as [Hrev | [k02 Hk02]];
      [rewrite Hrev in Hg; discriminate|].
    rewrite Hk02. cbn [bind].
    exists (l_f cfg + l_r cfg
            + (l_r cfg * (m_f cfg + m_r cfg) / 2.0 / c_f cfg / (l_f cfg + l_r cfg)
               - l_f cfg * (m_f cfg + m_r cfg) / 2.0 / c_r cfg
                 / (l_f cfg + l_r cfg)) * v vs * v vs
            - k02 * (l_r cfg
                     - l_f cfg * (m_f cfg + m_r cfg) * v vs * v vs / 2.0
                       / c_r cfg / (l_f cfg + l_r cfg))).
    intros k_ref.
    rewrite (truediv_nonzero _ _ Hr). cbn [bind].
    rewrite (truediv_nonzero _ _ Hw). cbn [bind].
    eexists. split; [reflexivity|]. field. repeat split; first [assumption | lra].
Qed.

Lemma feedforward_linear_in_curvature_witness :
  exists g : R,
    forall k_ref : R,
      exists f : R,
        LatController.ComputeFeedForward sample_config drive_state k_ref
          (mkarray 1 4 [[1; 2; 3; 4]]) = Ok f /\
        f = g * k_ref.
Proof.
  apply (feedforward_linear_in_curvature sample_config drive_state
           (mkarray 1 4 [[1; 2; 3; 4]])); simpl; try lra.
  right. exists 3. reflexivity.
Defined.

(** X14: in DRIVE gear, with non-zero stiffnesses and wheelbase, a gain
    matrix without a row or with fewer than three columns in its first row
    makes the call raise [IndexError]. *)
Theorem feedforward_needs_gain_entry :
  forall (cfg : Config) (vs : VehicleState) (k_ref : R) (K : ndarray),
    cfg.(c_f) <> 0 ->
    cfg.(c_r) <> 0 ->
    cfg.(l_f) + cfg.(l_r) <> 0 ->
    vs.(gear) = GEAR_DRIVE ->
    (length (nth 0 (rows K) []) <= 2)%nat ->
    LatController.ComputeFeedForward cfg vs k_ref K = Raise IndexError.
Proof.
  intros cfg vs k_ref K Hf Hr Hw Hg Hshort.
  unfold LatController.ComputeFeedForward.
  rewrite (truediv_nonzero _ _ Hf). cbn [bind].
  rewrite (truediv_nonzero _ _ Hw). cbn [bind].
  rewrite (truediv_nonzero _ _ Hr). cbn [bind].
  rewrite (truediv_nonzero _ _ Hw). cbn [bind].
  rewrite Hg. cbn [Gear_eqb].
  unfold getitem2, getitem.
  destruct (rows K) as [|r rs]; [reflexivity|].
  change (nth_error (r :: rs) 0) with (Some r).
  cbn [nth bind] in *.
  destruct (nth_error r 2) as [a|] eqn:E; [|reflexivity].
  exfalso. assert (2 < length r)%nat by (apply nth_error_Some; congruence). lia.
Qed.

Lemma feedforward_needs_gain_entry_witness :
  LatController.ComputeFeedForward sample_config drive_state 0.1 (mat1 0) =
  Raise IndexError.
Proof.
  apply (feedforward_needs_gain_entry sample_config drive_state 0.1 (mat1 0));
    simpl; try lra; [reflexivity | lia].
Defined.

(** ** [LatController.SolveLQRProblem] *)

(** X15: an iteration cap that is zero or negative means no Riccati update
    at all: the tolerance plays no part, and on arrays that pass the entry
    assertion the gain is computed from [P = Q]. *)
Theorem solve_without_iterations :
  forall (A B Q R0 : ndarray) (tolerance tolerance' : R)
         (max_num_iteration : Z),
    (max_num_iteration <= 0)%Z ->
    LatController.SolveLQRProblem A B Q R0 tolerance max_num_iteration =
    LatController.SolveLQRProblem A B Q R0 tolerance' 0 /\
    (LatController.compatible_dimensions A B Q R0 = true ->
     LatController.SolveLQRProblem A B Q R0 tolerance max_num_iteration =
     LatController.feedback_gain A B R0 (np_zeros (shape0 Q) (shape1 R0)) Q).
Proof.
  intros A B Q R0 tolerance tolerance' max_num_iteration Hn.
  assert (Hz : Z.to_nat max_num_iteration = 0%nat) by lia.
  unfold LatController.SolveLQRProblem. rewrite Hz.
  change (Z.to_nat 0) with 0%nat. cbn [LatController.while_loop].
  split; [reflexivity|].
  intros Hdim. rewrite Hdim. reflexivity.
Qed.

Lemma solve_without_iterations_witness :
  LatController.SolveLQRProblem (mat1 1) (mat1 1) (mat1 1) (mat1 1) 0.01 (-3) =
  LatController.SolveLQRProblem (mat1 1) (mat1 1) (mat1 1) (mat1 1) 5 0 /\
  LatController.SolveLQRProblem (mat1 1) (mat1 1) (mat1 1) (mat1 1) 0.01 (-3) =
  LatController.feedback_gain (mat1 1) (mat1 1) (mat1 1)
    (np_zeros (shape0 (mat1 1)) (shape1 (mat1 1))) (mat1 1).
Proof.
  destruct (solve_without_iterations (mat1 1) (mat1 1) (mat1 1) (mat1 1)
              0.01 5 (-3)) as [H1 H2]; [lia|].
  split; [exact H1 | apply H2; reflexivity].
Defined.

Lemma elementwise_shape :
  forall (f : R -> R -> R) (X Y Z : ndarray),
    elementwise f X Y = Ok Z ->
    shape0 Z = shape0 X /\ shape1 Z = shape1 X /\
    shape0 X = shape0 Y /\ shape1 X = shape1 Y.
Proof.
  intros f X Y Z H. unfold elementwise, same_shape in H.
  destruct (Nat.eqb (shape0 X) (shape0 Y)) eqn:E0; [|discriminate].
  destruct (Nat.eqb (shape1 X) (shape1 Y)) eqn:E1; [|discriminate].
  cbn [andb] in H. injection H as <-.
  apply Nat.eqb_eq in E0, E1. repeat split; assumption.
Qed.

Lemma np_linalg_inv_shape :
  forall S Z : ndarray,
    np_linalg_inv S = Ok Z ->
    shape0 Z = shape0 S /\ shape1 Z = shape1 S /\
    length (rows Z) = shape0 S.
Proof.
  intros S Z H. unfold np_linalg_inv in H.
  destruct (negb (Nat.eqb (shape0 S) (shape1 S))); [discriminate|].
  destruct (Req_dec_T (det (shape0 S) (rows S)) 0); [discriminate|].
  injection H as <-. cbn [shape0 shape1 rows].
  repeat split. unfold adjugate. rewrite !length_map, length_seq. reflexivity.
Qed.

Lemma feedback_gain_shape :
  forall (A B R0 M P K : ndarray),
    LatController.feedback_gain A B R0 M P = Ok K ->
    well_shaped (shape1 B) (shape1 A) K.
Proof.
  intros A B R0 M P K H. unfold LatController.feedback_gain in H.
  destruct (matmul (transpose B) P) as [BTP|e] eqn:E1; [|discriminate].
  cbn [bind] in H.
  destruct (matmul BTP B) as [BTPB|e] eqn:E2; [|discriminate].
  cbn [bind] in H.
  destruct (np_add BTPB R0) as [S|e] eqn:E3; [|discriminate].
  cbn [bind] in H.
  destruct (np_linalg_inv S) as [Sinv|e] eqn:E4; [|discriminate].
  cbn [bind] in H.
  destruct (matmul BTP A) as [BTPA|e] eqn:E5; [|discriminate].
  cbn [bind] in H.
  destruct (np_add BTPA (transpose M)) as [BTPA_MT|e] eqn:E6; [|discriminate].
  cbn [bind] in H.
  destruct (matmul_shape _ _ _ H) as (K0 & K1 & Kl & Kr).
  destruct (matmul_transpose_shape _ _ _ _ _ E1 E2) as (b0 & _).
  destruct (matmul_transpose_shape _ _ _ _ _ E1 E5) as (_ & a1 & _).
  destruct (elementwise_shape _ _ _ _ E3) as (s0 & _).
  destruct (elementwise_shape _ _ _ _ E6) as (_ & t1 & _).
  destruct (np_linalg_inv_shape _ _ E4) as (i0 & _ & il).
  unfold well_shaped. repeat split; try congruence.
  rewrite <- a1, <- t1. exact Kr.
Qed.

(** X16: a gain matrix that [SolveLQRProblem] returns has one row per
    column of [B] and one column per row of [A], and its rows have that
    length. *)
Theorem solve_gain_shape :
  forall (A B Q R0 : ndarray) (tolerance : R) (max_num_iteration : Z)
         (K : ndarray),
    LatController.SolveLQRProblem A B Q R0 tolerance max_num_iteration = Ok K ->
    well_shaped (shape1 B) (shape0 A) K.
Proof.
  intros A B Q R0 tolerance max_num_iteration K H.
  unfold LatController.SolveLQRProblem in H.
  destruct (LatController.compatible_dimensions A B Q R0) eqn:Hdim;
    [|discriminate].
  cbn [LatController.assert bind] in H.
  destruct (LatController.while_loop A B Q R0 tolerance
              (np_zeros (shape0 Q) (shape1 R0)) (Z.to_nat max_num_iteration)
              Q LatController.PosInf) as [[P diff]|e]; [|discriminate].
  cbn [bind] in H.
  apply feedback_gain_shape in H.
  unfold LatController.compatible_dimensions in Hdim.
  repeat (apply andb_prop in Hdim; destruct Hdim as [Hdim ?]).
  apply Nat.eqb_eq in Hdim. rewrite Hdim. exact H.
Qed.

Lemma solve_gain_shape_witness :
  well_shaped (shape1 (mat1 1)) (shape0 (mat1 1)) (mat1 (3 / 5)).
Proof.
  apply (solve_gain_shape (mat1 1) (mat1 1) (mat1 1) (mat1 1) (1 / 2) 150).
  exact solve_unit_value.
Defined.

(** X17: on arrays with at least one state that pass the entry assertion,
    with a well-shaped [Q], the [while] loop always returns, and the call
    returns a gain or raises the [LinAlgError] of the final
    [np.linalg.inv]; it raises nothing else. *)
Theorem solve_outcomes :
  forall (A B Q R0 : ndarray) (tolerance : R) (max_num_iteration : Z),
    LatController.compatible_dimensions A B Q R0 = true ->
    (0 < shape0 A)%nat ->
    well_shaped (shape0 A) (shape0 A) Q ->
    returns (LatController.while_loop A B Q R0 tolerance
               (np_zeros (shape0 Q) (shape1 R0))
               (Z.to_nat max_num_iteration) Q LatController.PosInf) /\
    (returns (LatController.SolveLQRProblem A B Q R0 tolerance max_num_iteration) \/
     LatController.SolveLQRProblem A B Q R0 tolerance max_num_iteration =
     Raise LinAlgError).
Proof.
  intros A B Q R0 tolerance max_num_iteration Hdim Hpos HQ.
  destruct (solve_fails_only_at_final_inverse A B Q R0 tolerance
              max_num_iteration Hdim Hpos HQ) as [[P HP] Hout].
  split; [|exact Hout].
  destruct (compatible_dimensions_shapes A B Q R0 Hdim) as [HA HB].
  rewrite <- (while_loop_iterate A B Q R0 tolerance HA HB
                (Z.to_nat max_num_iteration) Q LatController.PosInf eq_refl)
    in HP.
  destruct (LatController.while_loop A B Q R0 tolerance
              (np_zeros (shape0 Q) (shape1 R0)) (Z.to_nat max_num_iteration)
              Q LatController.PosInf) as [r|e]; [|discriminate].
  exists r. reflexivity.
Qed.

Lemma solve_outcomes_witness :
  returns (LatController.while_loop (mat1 1) (mat1 1) (mat1 0) (mat1 0) 0.01
             (np_zeros (shape0 (mat1 0)) (shape1 (mat1 0)))
             (Z.to_nat 150) (mat1 0) LatController.PosInf) /\
  (returns (LatController.SolveLQRProblem
              (mat1 1) (mat1 1) (mat1 0) (mat1 0) 0.01 150) \/
   LatController.SolveLQRProblem (mat1 1) (mat1 1) (mat1 0) (mat1 0) 0.01 150 =
   Raise LinAlgError).
Proof.
  apply (solve_outcomes (mat1 1) (mat1 1) (mat1 0) (mat1 0) 0.01 150).
  - reflexivity.
  - simpl. lia.
  - unfold well_shaped. simpl. repeat split; auto.
Defined.

Lemma while_loop_more_fuel :
  forall (A B Q R0 : ndarray) (tolerance : R) (M : ndarray)
         (n j : nat) (P P' : ndarray) (diff : LatController.xreal) (d : R),
    LatController.while_loop A B Q R0 tolerance M n P diff =
    Ok (P', LatController.Finite d) ->
    d <= tolerance ->
    LatController.while_loop A B Q R0 tolerance M (n + j) P diff =
    Ok (P', LatController.Finite d).
Proof.
  intros A B Q R0 tolerance M n j. induction n as [|n IH];
    intros P P' diff d H Hd.
  - cbn [LatController.while_loop] in H. injection H as -> ->.
    apply while_loop_stops. unfold LatController.xreal_gt.
    destruct (Rgt_dec d tolerance); [lra | reflexivity].
  - cbn [LatController.while_loop Nat.add] in *.
    destruct (LatController.xreal_gt diff tolerance); [|exact H].
    destruct (LatController.loop_body A B Q R0 M P) as [[P_next d1]|e];
      [|discriminate].
    cbn [bind] in *. apply IH; assumption.
Qed.

(** X18: raising the iteration cap beyond convergence changes nothing.  If
    the loop run with cap [n] ends with a change that is at most the
    tolerance, the call returns the same result for every cap [n' >= n]. *)
Theorem solve_stable_after_convergence :
  forall (A B Q R0 : ndarray) (tolerance : R) (n n' : Z)
         (P : ndarray) (d : R),
    LatController.while_loop A B Q R0 tolerance
      (np_zeros (shape0 Q) (shape1 R0)) (Z.to_nat n) Q LatController.PosInf =
    Ok (P, LatController.Finite d) ->
    d <= tolerance ->
    (n <= n')%Z ->
    LatController.SolveLQRProblem A B Q R0 tolerance n' =
    LatController.SolveLQRProblem A B Q R0 tolerance n.
Proof.
  intros A B Q R0 tolerance n n' P d Hloop Hd Hn.
  unfold LatController.SolveLQRProblem.
  destruct (LatController.compatible_dimensions A B Q R0); [|reflexivity].
  cbn [LatController.assert bind].
  replace (Z.to_nat n') with (Z.to_nat n + (Z.to_nat n' - Z.to_nat n))%nat
    by lia.
  rewrite (while_loop_more_fuel _ _ _ _ _ _ _ _ _ _ _ _ Hloop Hd), Hloop.
  reflexivity.
Qed.

Lemma unit_loop_converges :
  LatController.while_loop (mat1 1) (mat1 1) (mat1 1) (mat1 1) (1 / 2)
    (np_zeros (shape0 (mat1 1)) (shape1 (mat1 1))) (Z.to_nat 1) (mat1 1)
    LatController.PosInf =
  Ok (mat1 (3 / 2), LatController.Finite (1 / 2)).
Proof.
  change (Z.to_nat 1) with 1%nat.
  cbn [LatController.while_loop LatController.xreal_gt].
  rewrite (loop_body_update (mat1 1) (mat1 1) (mat1 1) (mat1 1) (mat1 1)
             eq_refl eq_refl).
  rewrite update_mat1, first_update_value. cbn [bind].
  rewrite change_mat1, Rabs_half. reflexivity.
Qed.

Lemma solve_stable_after_convergence_witness :
  LatController.SolveLQRProblem (mat1 1) (mat1 1) (mat1 1) (mat1 1) (1 / 2) 150 =
  LatController.SolveLQRProblem (mat1 1) (mat1 1) (mat1 1) (mat1 1) (1 / 2) 1.
Proof.
  apply (solve_stable_after_convergence (mat1 1) (mat1 1) (mat1 1) (mat1 1)
           (1 / 2) 1 150 (mat1 (3 / 2)) (1 / 2)).
  - exact unit_loop_converges.
  - lra.
  - lia.
Defined.

(** ** [LatController.UpdateMatrix] *)

Lemma list_set_length :
  forall (A : Type) (l : list A) (i : nat) (a : A),
    length (list_set l i a) = length l.
Proof.
  intros A l. induction l as [|h t IH]; intros [|i] a; simpl; auto.
Qed.

Lemma Forall_list_set :
  forall (A : Type) (P : A -> Prop) (l : list A) (i : nat) (a : A),
    Forall P l -> P a -> Forall P (list_set l i a).
Proof.
  intros A P l i a H Ha. revert i.
  induction H as [|h t Hh Ht IH]; intros [|i]; simpl; auto.
Qed.

Lemma np_setitem_well_shaped :
  forall (X : ndarray) (n m i j : nat) (a : R),
    well_shaped n m X -> (i < n)%nat -> (j < m)%nat ->
    exists Z, np_setitem X i j a = Ok Z /\ well_shaped n m Z.
Proof.
  intros X n m i j a (X0 & X1 & Xl & Xr) Hi Hj. unfold np_setitem.
  rewrite X0, X1.
  replace (Nat.ltb i n) with true by (symmetry; apply Nat.ltb_lt; exact Hi).
  replace (Nat.ltb j m) with true by (symmetry; apply Nat.ltb_lt; exact Hj).
  cbn [andb]. eexists. split; [reflexivity|].
  unfold well_shaped. cbn [shape0 shape1 rows].
  repeat split.
  - rewrite list_set_length. exact Xl.
  - apply Forall_list_set; [exact Xr|].
    rewrite list_set_length.
    rewrite Forall_forall in Xr. apply Xr. apply nth_In. lia.
Qed.

Lemma np_zeros_well_shaped :
  forall n m : nat, well_shaped n m (np_zeros n m).
Proof.
  intros n m. unfold well_shaped, np_zeros. cbn [shape0 shape1 rows].
  repeat split.
  - apply repeat_length.
  - apply Forall_forall. intros r Hr. apply repeat_spec in Hr. subst r.
    apply repeat_length.
Qed.

Lemma np_eye_well_shaped : forall n : nat, well_shaped n n (np_eye n).
Proof.
  intros n. unfold well_shaped, np_eye. cbn [shape0 shape1 rows].
  repeat split.
  - rewrite length_map, length_seq. reflexivity.
  - apply Forall_forall. intros r Hr. apply in_map_iff in Hr.
    destruct Hr as (i & <- & _). rewrite length_map, length_seq. reflexivity.
Qed.

Lemma np_diag_well_shaped :
  forall l : list R, well_shaped (length l) (length l) (np_diag l).
Proof.
  intros l. unfold well_shaped, np_diag. cbn [shape0 shape1 rows].
  repeat split.
  - rewrite length_map, length_seq. reflexivity.
  - apply Forall_forall. intros r Hr. apply in_map_iff in Hr.
    destruct Hr as (i & <- & _). rewrite length_map, length_seq. reflexivity.
Qed.

Lemma np_scale_well_shaped :
  forall (s : R) (X : ndarray) (n m : nat),
    well_shaped n m X -> well_shaped n m (np_scale s X).
Proof.
  intros s X n m (X0 & X1 & Xl & Xr). unfold well_shaped, np_scale.
  cbn [shape0 shape1 rows]. repeat split; try assumption.
  - rewrite length_map. exact Xl.
  - apply Forall_forall. intros r Hr. apply in_map_iff in Hr.
    destruct Hr as (r0 & <- & Hin). rewrite length_map.
    rewrite Forall_forall in Xr. apply Xr. exact Hin.
Qed.

Lemma greville_rows :
  forall (n : nat) (cols : list (list R))
         (st : list (list R) * list (list R)),
    length (snd (fold_left (greville_step n) cols st)) =
    (length (snd st) + length cols)%nat.
Proof.
  intros n cols. induction cols as [|a cols IH]; intros [As G].
  - simpl. lia.
  - cbn [fold_left]. rewrite IH. unfold greville_step. cbn [snd].
    rewrite length_app, map2_length, length_map, Nat.min_id. simpl. lia.
Qed.

Lemma np_linalg_pinv_rows :
  forall X : ndarray,
    shape0 (np_linalg_pinv X) = shape1 X /\
    shape1 (np_linalg_pinv X) = shape0 X /\
    length (rows (np_linalg_pinv X)) = shape1 X.
Proof.
  intros X. unfold np_linalg_pinv. cbn [shape0 shape1 rows].
  repeat split. rewrite greville_rows, columns_length. reflexivity.
Qed.

Ltac setitem_step n m HX :=
  match goal with
  | |- context [np_setitem ?X ?i ?j ?a] =>
      let Z := fresh "Z" in
      let HZ := fresh "HZ" in
      let H := fresh "H" in
      assert (H : exists Z0, np_setitem X i j a = Ok Z0 /\ well_shaped n m Z0)
        by (apply np_setitem_well_shaped; [exact HX | lia | lia]);
      destruct H as (Z & -> & HZ); cbn [bind]; clear HX; rename HZ into HX
  end.

Lemma UpdateMatrix_zero_speed :
  forall (cfg : Config) (lqr : LqrConfig) (vs : VehicleState),
    vs.(v) = 0 ->
    (3 <= lqr.(state_size))%nat ->
    LatController.UpdateMatrix cfg lqr vs = Raise ZeroDivisionError.
Proof.
  intros cfg lqr vs Hv Hn. unfold LatController.UpdateMatrix.
  remember (state_size lqr) as n eqn:En.
  pose proof (np_zeros_well_shaped n n) as HA.
  destruct (Gear_eqb (gear vs) GEAR_REVERSE);
    setitem_step n n HA; setitem_step n n HA;
    unfold truediv;
    (destruct (Req_dec_T (m_f cfg + m_r cfg) 0); [reflexivity|]);
    cbn [bind]; rewrite Hv;
    (destruct (Req_dec_T 0 0) as [_ | H]; [reflexivity | contradiction]).
Qed.

(** X19: at zero speed, with a state size of at least three, the call
    raises [ZeroDivisionError] (the division by [v] in the first entry of
    the lateral-rate row), in either gear. *)
Theorem update_matrix_zero_speed :
  forall (cfg : Config) (lqr : LqrConfig) (vs : VehicleState),
    vs.(v) = 0 ->
    (3 <= lqr.(state_size))%nat ->
    LatController.UpdateMatrix cfg lqr vs = Raise ZeroDivisionError.
Proof.
  intros cfg lqr vs Hv Hn. apply UpdateMatrix_zero_speed; assumption.
Qed.

Lemma update_matrix_zero_speed_witness :
  LatController.UpdateMatrix sample_config sample_lqr_config stopped_state =
  Raise ZeroDivisionError.
Proof.
  apply (update_matrix_zero_speed sample_config sample_lqr_config stopped_state).
  - reflexivity.
  - simpl. lia.
Defined.

Lemma UpdateMatrix_returns :
  forall (cfg : Config) (lqr : LqrConfig) (vs : VehicleState),
    cfg.(m_f) + cfg.(m_r) <> 0 ->
    lqr.(Iz) <> 0 ->
    vs.(v) <> 0 ->
    (4 <= lqr.(state_size))%nat ->
    exists Ad Bd,
      LatController.UpdateMatrix cfg lqr vs = Ok (Ad, Bd) /\
      well_shaped lqr.(state_size) lqr.(state_size) Ad /\
      Bd = mkarray lqr.(state_size) 1
             ([[0 * cfg.(ts)];
               [cfg.(c_f) / (cfg.(m_f) + cfg.(m_r)) * cfg.(ts)];
               [0 * cfg.(ts)];
               [cfg.(l_f) * cfg.(c_f) / lqr.(Iz) * cfg.(ts)]]
              ++ repeat [0 * cfg.(ts)] (lqr.(state_size) - 4)).
Proof.
  intros cfg lqr vs Hm HIz Hv Hn. unfold LatController.UpdateMatrix.
  remember (state_size lqr) as n eqn:En.
  destruct n as [|[|[|[|k]]]]; try lia.
  set (n := S (S (S (S k)))) in *.
  pose proof (np_zeros_well_shaped n n) as HA.
  assert (HA' : exists A0,
             (if Gear_eqb (gear vs) GEAR_REVERSE
              then a <- np_setitem (np_zeros n n) 0 1 0.0 ;;
                   np_setitem a 0 2 (1.0 * v vs)
              else a <- np_setitem (np_zeros n n) 0 1 1.0 ;;
                   np_setitem a 0 2 0.0) = Ok A0 /\ well_shaped n n A0).
  { destruct (Gear_eqb (gear vs) GEAR_REVERSE);
      setitem_step n n HA;
      (apply np_setitem_well_shaped; [exact HA | subst n; lia | subst n; lia]). }
  clear HA. destruct HA' as (A0 & -> & HA). cbn [bind].
  rewrite !(truediv_nonzero _ _ Hm), !(truediv_nonzero _ _ HIz). cbn [bind].
  rewrite !(truediv_nonzero _ _ Hv). cbn [bind].
  subst n.
  do 7 setitem_step (S (S (S (S k)))) (S (S (S (S k)))) HA.
  set (n := S (S (S (S k)))) in *.
  pose proof (np_scale_well_shaped (ts cfg * 0.5) _ n n HA) as HhA.
  destruct (elementwise_well_shaped Rminus _ _ n n (np_eye_well_shaped n) HhA)
    as (L & HL & HLw).
  unfold np_sub at 1. rewrite HL. cbn [bind].
  destruct (elementwise_well_shaped Rplus _ _ n n (np_eye_well_shaped n) HhA)
    as (R1 & HR1 & HR1w).
  unfold np_add at 1. rewrite HR1. cbn [bind].
  destruct (np_linalg_pinv_rows L) as (p0 & p1 & pl).
  destruct HLw as (L0 & L1 & _). destruct HR1w as (r0 & r1 & _).
  destruct (matmul_well_shaped (np_linalg_pinv L) R1 n n n)
    as (Ad & -> & HAd); try congruence.
  cbn [bind].
  exists Ad. eexists. split; [|split; [exact HAd | reflexivity]].
  subst n. unfold np_setitem, np_zeros, np_scale_r. simpl.
  rewrite map_repeat, Nat.sub_0_r. reflexivity.
Qed.

(** X20: away from zero speed, with non-zero total mass and yaw inertia and
    a state size of at least four, the call returns a square discrete state
    matrix of the state size and the input column
    [ts * (0, c_f / m, 0, l_f c_f / Iz, 0, ...)], which depends neither on
    the speed nor on the gear. *)
Theorem update_matrix_returns :
  forall (cfg : Config) (lqr : LqrConfig) (vs : VehicleState),
    cfg.(m_f) + cfg.(m_r) <> 0 ->
    lqr.(Iz) <> 0 ->
    vs.(v) <> 0 ->
    (4 <= lqr.(state_size))%nat ->
    exists Ad Bd,
      LatController.UpdateMatrix cfg lqr vs = Ok (Ad, Bd) /\
      well_shaped lqr.(state_size) lqr.(state_size) Ad /\
      Bd = mkarray lqr.(state_size) 1
             ([[0 * cfg.(ts)];
               [cfg.(c_f) / (cfg.(m_f) + cfg.(m_r)) * cfg.(ts)];
               [0 * cfg.(ts)];
               [cfg.(l_f) * cfg.(c_f) / lqr.(Iz) * cfg.(ts)]]
              ++ repeat [0 * cfg.(ts)] (lqr.(state_size) - 4)).
Proof.
  intros cfg lqr vs Hm HIz Hv Hn.
  apply UpdateMatrix_returns; assumption.
Qed.

Lemma update_matrix_returns_witness :
  exists Ad Bd,
    LatController.UpdateMatrix sample_config sample_lqr_config drive_state =
    Ok (Ad, Bd) /\
    well_shaped 4 4 Ad /\
    Bd = mkarray 4 1
           ([[0 * 0.1]; [155494.663 / (570 + 570) * 0.1]; [0 * 0.1];
             [1.4 * 155494.663 / 1436.24 * 0.1]] ++ repeat [0 * 0.1] (4 - 4)).
Proof.
  apply (update_matrix_returns sample_config sample_lqr_config drive_state);
    simpl; try lra; lia.
Defined.

(** ** [LatController.ComputeControlCommand] *)

Lemma SolveLQRProblem_Ok_shape :
  forall (A B Q R0 : ndarray) (tolerance : R) (max_num_iteration : Z)
         (K : ndarray),
    LatController.SolveLQRProblem A B Q R0 tolerance max_num_iteration = Ok K ->
    well_shaped (shape1 B) (shape0 A) K.
Proof.
  intros A B Q R0 tolerance max_num_iteration K H.
  unfold LatController.SolveLQRProblem in H.
  destruct (LatController.compatible_dimensions A B Q R0) eqn:Hdim;
    [|discriminate].
  cbn [LatController.assert bind] in H.
  destruct (LatController.while_loop A B Q R0 tolerance
              (np_zeros (shape0 Q) (shape1 R0)) (Z.to_nat max_num_iteration)
              Q LatController.PosInf) as [[P diff]|e]; [|discriminate].
  cbn [bind] in H.
  apply feedback_gain_shape in H.
  unfold LatController.compatible_dimensions in Hdim.
  repeat (apply andb_prop in Hdim; destruct Hdim as [Hdim ?]).
  apply Nat.eqb_eq in Hdim. rewrite Hdim. exact H.
Qed.

Lemma ComputeFeedForward_returns :
  forall (cfg : Config) (vs : VehicleState) (k_ref : R) (K : ndarray),
    cfg.(c_f) <> 0 ->
    cfg.(c_r) <> 0 ->
    cfg.(l_f) + cfg.(l_r) <> 0 ->
    returns (getitem2 K 0 2) ->
    returns (LatController.ComputeFeedForward cfg vs k_ref K).
Proof.
  intros cfg vs k_ref K Hf Hr Hw [k02 Hk].
  unfold LatController.ComputeFeedForward.
  rewrite !(truediv_nonzero _ _ Hf). cbn [bind].
  rewrite !(truediv_nonzero _ _ Hw). cbn [bind].
  rewrite !(truediv_nonzero _ _ Hr). cbn [bind].
  rewrite !(truediv_nonzero _ _ Hw). cbn [bind].
  destruct (Gear_eqb (gear vs) GEAR_REVERSE); [eexists; reflexivity|].
  rewrite Hk. cbn [bind].
  eexists. reflexivity.
Qed.

Lemma matmul_row_state :
  forall (r : list R) (k : nat) (e d1 th d3 : R),
    matmul (mkarray 1 (4 + k) [r])
           (mkarray (4 + k) 1 ([[e]; [d1]; [th]; [d3]] ++ repeat [0] k)) =
    Ok (mkarray 1 1 [[dot r ([e; d1; th; d3] ++ repeat 0 k)]]).
Proof.
  intros r k e d1 th d3. unfold matmul, columns.
  cbn [shape0 shape1 rows]. rewrite Nat.eqb_refl.
  cbn [seq map app nth]. rewrite map_repeat. reflexivity.
Qed.

Lemma lateral_command_after_projection :
  forall (cfg : Config) (lqr : LqrConfig) (vs : VehicleState)
         (ta ta' : TrajectoryAnalyzer) (th e yr kr : R),
    usable_config cfg lqr ->
    vs.(v) <> 0 ->
    ToTrajectoryFrame ta vs = (ta', Ok (th, e, yr, kr)) ->
    LatController.ComputeControlCommand cfg lqr vs ta = (ta', Raise LinAlgError) \/
    exists Ad Bd K ff,
      LatController.UpdateMatrix cfg lqr vs = Ok (Ad, Bd) /\
      LatController.SolveLQRProblem Ad Bd (np_diag lqr.(matrix_q))
        (np_diag lqr.(matrix_r)) lqr.(eps) lqr.(max_iteration) = Ok K /\
      LatController.ComputeFeedForward cfg vs kr K = Ok ff /\
      LatController.ComputeControlCommand cfg lqr vs ta =
      (ta',
       Ok (- dot (nth 0 (rows K) [])
               ([e; (e - vs.(e_cg)) / cfg.(ts);
                 th; (th - vs.(theta_e)) / cfg.(ts)]
                ++ repeat 0 (lqr.(state_size) - 4))
           + ff, th, e)).
Proof.
  intros cfg lqr vs ta ta' th e yr kr
         (Hf & Hr & Hw & Hm & HIz & Hts & Hn & Hq & Hrl) Hv Hframe.
  unfold LatController.ComputeControlCommand. rewrite Hframe.
  destruct (UpdateMatrix_returns cfg lqr vs Hm HIz Hv Hn)
    as (Ad & Bd & -> & (A0 & A1 & _) & HBd).
  cbn [bind].
  assert (B0 : shape0 Bd = state_size lqr) by (rewrite HBd; reflexivity).
  assert (B1 : shape1 Bd = 1%nat) by (rewrite HBd; reflexivity).
  clear HBd.
  assert (Hdim : LatController.compatible_dimensions Ad Bd
                   (np_diag (matrix_q lqr)) (np_diag (matrix_r lqr)) = true).
  { unfold LatController.compatible_dimensions, np_diag.
    cbn [shape0 shape1]. rewrite A0, A1, B0, B1, Hq, Hrl, !Nat.eqb_refl.
    reflexivity. }
  assert (HQ : well_shaped (shape0 Ad) (shape0 Ad) (np_diag (matrix_q lqr))).
  { rewrite A0, <- Hq. apply np_diag_well_shaped. }
  destruct (solve_fails_only_at_final_inverse Ad Bd
              (np_diag (matrix_q lqr)) (np_diag (matrix_r lqr))
              (eps lqr) (max_iteration lqr) Hdim ltac:(lia) HQ)
    as [_ [[K HK] | Hraise]];
    [| left; rewrite Hraise; reflexivity].
  right. rewrite HK. cbn [bind].
  pose proof (SolveLQRProblem_Ok_shape _ _ _ _ _ _ _ HK) as (K0 & K1 & Kl & Kr).
  rewrite B1 in K0, Kl. rewrite A0 in K1, Kr.
  destruct K as [k0 k1 krows]. cbn [shape0 shape1 rows] in *. subst k0 k1.
  destruct krows as [|r [|r' rest]]; try (simpl in Kl; lia).
  inversion Kr as [|? ? Hlen _]; subst.
  remember (state_size lqr) as n eqn:En.
  destruct n as [|[|[|[|k]]]]; try lia.
  rewrite !(truediv_nonzero _ _ Hts).
  unfold np_setitem, np_zeros.
  cbn [bind shape0 shape1 rows Nat.ltb Nat.leb andb repeat list_set nth].
  change (S (S (S (S k)))) with (4 + k)%nat in *.
  change ([e] :: [(e - e_cg vs) / ts cfg] :: [th]
          :: [(th - theta_e vs) / ts cfg] :: repeat [0] k)
    with ([[e]; [(e - e_cg vs) / ts cfg]; [th]; [(th - theta_e vs) / ts cfg]]
          ++ repeat [0] k).
  rewrite matmul_row_state. cbn [bind].
  unfold getitem2 at 1, getitem. cbn [rows nth_error bind].
  destruct (ComputeFeedForward_returns cfg vs kr
              (mkarray 1 (4 + k) [r]) Hf Hr Hw) as [ff Hff].
  { unfold getitem2, getitem. cbn [rows].
    change (nth_error [r] 0) with (Some r). cbn [bind].
    destruct (nth_error r 2) as [a|] eqn:E; [exists a; reflexivity|].
    apply nth_error_None in E. simpl in Hlen. lia. }
  rewrite Hff. cbn [bind].
  exists Ad, Bd, (mkarray 1 (4 + k) [r]), ff.
  split; [reflexivity|]. split; [exact HK|]. split; [exact Hff|].
  cbn [rows nth].
  replace (4 + k - 4)%nat with k by lia. reflexivity.
Qed.


Lemma origin_frame_zero :
  forall vs : VehicleState,
    vs.(x) = 0 -> vs.(y) = 0 -> vs.(yaw) = 0 ->
    ToTrajectoryFrame sample_analyzer vs =
    ({| x_ := [0; 0]; y_ := [0; 0]; yaw_ := [0; 0]; k_ := [0; 0];
        ind_old := 0; ind_end := 2 |},
     Ok (0, 0, 0, 0)).
Proof.
  intros vs Hx Hy Hyaw. rewrite (origin_frame vs Hx Hy Hyaw).
  replace (0 - 0) with 0 by ring. rewrite hypot_0_0.
  assert (Hp : pi_2_pi 0 = 0).
  { unfold pi_2_pi. pose proof PI_RGT_0.
    destruct (Rgt_dec 0 PI); [lra|]. destruct (Rlt_dec 0 (- PI)); [lra|].
    reflexivity. }
  rewrite Hp. replace (-1.0 * 0) with 0 by lra. reflexivity.
Qed.


(** X21: composition of the lateral command.  With usable constants, away
    from zero speed and after a projection that returns [(theta_e, e_cg,
    yaw_ref, k_ref)], the call either raises [LinAlgError] (from the final
    inverse of the solver) or returns the projection's two errors unchanged
    together with the steering angle [- K[0] . state + feedforward], where
    [K] is the solver's gain for the matrices of [UpdateMatrix] and [state]
    is [(e_cg, (e_cg - old e_cg) / ts, theta_e, (theta_e - old theta_e) /
    ts, 0, ...)].  The analyzer is left as the projection left it. *)
Theorem lateral_command_composition :
  forall (cfg : Config) (lqr : LqrConfig) (vs : VehicleState)
         (ta ta' : TrajectoryAnalyzer) (th e yr kr : R),
    usable_config cfg lqr ->
    vs.(v) <> 0 ->
    ToTrajectoryFrame ta vs = (ta', Ok (th, e, yr, kr)) ->
    LatController.ComputeControlCommand cfg lqr vs ta = (ta', Raise LinAlgError) \/
    exists Ad Bd K ff,
      LatController.UpdateMatrix cfg lqr vs = Ok (Ad, Bd) /\
      LatController.SolveLQRProblem Ad Bd (np_diag lqr.(matrix_q))
        (np_diag lqr.(matrix_r)) lqr.(eps) lqr.(max_iteration) = Ok K /\
      LatController.ComputeFeedForward cfg vs kr K = Ok ff /\
      LatController.ComputeControlCommand cfg lqr vs ta =
      (ta',
       Ok (- dot (nth 0 (rows K) [])
               ([e; (e - vs.(e_cg)) / cfg.(ts);
                 th; (th - vs.(theta_e)) / cfg.(ts)]
                ++ repeat 0 (lqr.(state_size) - 4))
           + ff, th, e)).
Proof.
  intros cfg lqr vs ta ta' th e yr kr Hu Hv Hframe.
  apply (lateral_command_after_projection cfg lqr vs ta ta' th e yr kr);
    assumption.
Qed.

Lemma lateral_command_composition_witness :
  LatController.ComputeControlCommand sample_config sample_lqr_config
    drive_state sample_analyzer =
  ({| x_ := [0; 0]; y_ := [0; 0]; yaw_ := [0; 0]; k_ := [0; 0];
      ind_old := 0; ind_end := 2 |}, Raise LinAlgError) \/
  exists Ad Bd K ff,
    LatController.UpdateMatrix sample_config sample_lqr_config drive_state =
    Ok (Ad, Bd) /\
    LatController.SolveLQRProblem Ad Bd (np_diag [1; 0; 1; 0]) (np_diag [1])
      0.01 150 = Ok K /\
    LatController.ComputeFeedForward sample_config drive_state 0 K = Ok ff /\
    LatController.ComputeControlCommand sample_config sample_lqr_config
      drive_state sample_analyzer =
    ({| x_ := [0; 0]; y_ := [0; 0]; yaw_ := [0; 0]; k_ := [0; 0];
        ind_old := 0; ind_end := 2 |},
     Ok (- dot (nth 0 (rows K) [])
             ([0; (0 - 0) / 0.1; 0; (0 - 0) / 0.1] ++ repeat 0 (4 - 4))
         + ff, 0, 0)).
Proof.
  apply (lateral_command_composition sample_config sample_lqr_config
           drive_state sample_analyzer _ 0 0 0 0).
  - unfold usable_config. simpl. repeat split; try lra; lia.
  - simpl. lra.
  - apply origin_frame_zero; reflexivity.
Defined.

(** X22: at zero speed, with a state size of at least three, a call whose
    projection returns raises [ZeroDivisionError] from [UpdateMatrix]; the
    analyzer's cursor has been advanced by the projection all the same. *)
Theorem lateral_command_zero_speed :
  forall (cfg : Config) (lqr : LqrConfig) (vs : VehicleState)
         (ta : TrajectoryAnalyzer),
    vs.(v) = 0 ->
    (3 <= lqr.(state_size))%nat ->
    returns (snd (ToTrajectoryFrame ta vs)) ->
    LatController.ComputeControlCommand cfg lqr vs ta =
    (fst (ToTrajectoryFrame ta vs), Raise ZeroDivisionError).
Proof.
  intros cfg lqr vs ta Hv Hn [[[[th e] yr] kr] Hr].
  unfold LatController.ComputeControlCommand.
  destruct (ToTrajectoryFrame ta vs) as [ta' res]. cbn [fst snd] in *.
  subst res. rewrite (UpdateMatrix_zero_speed cfg lqr vs Hv Hn).
  reflexivity.
Qed.

Lemma lateral_command_zero_speed_witness :
  LatController.ComputeControlCommand sample_config sample_lqr_config
    stopped_state sample_analyzer =
  (fst (ToTrajectoryFrame sample_analyzer stopped_state),
   Raise ZeroDivisionError).
Proof.
  apply (lateral_command_zero_speed sample_config sample_lqr_config
           stopped_state sample_analyzer).
  - reflexivity.
  - simpl. lia.
  - rewrite (origin_frame_zero stopped_state eq_refl eq_refl eq_refl).
    eexists. reflexivity.
Defined.

(** X23: the path is looked at before anything else.  With the cursor at
    or past the end of the scanned range the call raises [ValueError],
    whatever the constants and the vehicle state, and leaves the analyzer
    as it was. *)
Theorem lateral_command_on_exhausted_path :
  forall (cfg : Config) (lqr : LqrConfig) (vs : VehicleState)
         (ta : TrajectoryAnalyzer),
    (Nat.min ta.(ind_end) (length ta.(x_)) <= ta.(ind_old))%nat ->
    LatController.ComputeControlCommand cfg lqr vs ta = (ta, Raise ValueError).
Proof.
  intros cfg lqr vs ta H. unfold LatController.ComputeControlCommand.
  rewrite (ToTrajectoryFrame_exhausted ta vs H). reflexivity.
Qed.

Lemma lateral_command_on_exhausted_path_witness :
  LatController.ComputeControlCommand sample_config sample_lqr_config
    drive_state empty_analyzer = (empty_analyzer, Raise ValueError).
Proof.
  apply (lateral_command_on_exhausted_path sample_config sample_lqr_config
           drive_state empty_analyzer).
  simpl. lia.
Defined.


